(** * mcp-agents: context router, instruction parser and agent dispatch

    A shallow embedding of the TypeScript sources

      - [src/nlp/instruction-parser.ts]   (module [Parser])
      - [src/agent-template.ts], [src/agents/solana-defi-agent.ts],
        [src/agents/nft-market-agent.ts]  (module [Agents])
      - [src/context-router.ts]           (module [Router])

    together with the properties of the routing and dispatch logic.

    Conventions of the embedding.

    - A JavaScript string is a sequence of code units; the model keeps the
      code units of the Latin-1 range (one [ascii] each), on which
      [toLowerCase] is a code-unit-wise map and the white space of [trim]
      and of the regular expression class [\s] is a fixed finite set.
    - A function with effects is a computation in the monad [Eff]: it
      threads the mutable state (the console and the number of clock
      readings; for the methods of the router also its [contexts] map) and
      ends either fulfilled with a value or rejected with the thrown value,
      which is also how the promise of an [async] function settles.  The
      state survives a rejection, as the side effects of a JavaScript
      function survive its [throw].
    - What the sources import from other packages ([fs], [path], [yaml],
      [JSON], [PublicKey] of web3.js, the wall clock and the floating-point
      formatting of numbers) is not part of the repository: it is the
      interface [Host], over which everything is parametric. *)

From Stdlib Require Import String Ascii List Bool Arith NArith ZArith QArith Lia.
From Stdlib Require Import DecimalString.
Import ListNotations.

Set Implicit Arguments.

Local Open Scope string_scope.
Local Open Scope list_scope.

(* ================================================================== *)
(** ** JavaScript strings (Latin-1 code units) *)

Module JsString.

Definition code_unit (c : ascii) : N := N_of_ascii c.

(** [A-Z] and the upper-case letters U+00C0..U+00DE, the multiplication
    sign U+00D7 excepted, have their lower-case form 32 code points up;
    every other Latin-1 code unit is its own lower-case form. *)
Definition is_upper (c : ascii) : bool :=
  let n := code_unit c in
  ((65 <=? n) && (n <=? 90))%N
  || ((192 <=? n) && (n <=? 222) && negb (n =? 215))%N.

Definition lower_char (c : ascii) : ascii :=
  if is_upper c then ascii_of_N (code_unit c + 32) else c.

(** White space and line terminators of ECMAScript below U+0100:
    TAB, LF, VT, FF, CR, SPACE and NO-BREAK SPACE. *)
Definition is_space (c : ascii) : bool :=
  let n := code_unit c in
  ((9 <=? n) && (n <=? 13))%N || (n =? 32)%N || (n =? 160)%N.

Definition is_digit (c : ascii) : bool :=
  let n := code_unit c in ((48 <=? n) && (n <=? 57))%N.

(** The class [\w] of a regular expression without the [i] and [u]
    flags: [[A-Za-z0-9_]]. *)
Definition is_word (c : ascii) : bool :=
  let n := code_unit c in
  ((65 <=? n) && (n <=? 90))%N || ((97 <=? n) && (n <=? 122))%N
  || is_digit c || (n =? 95)%N.

Fixpoint smap (f : ascii -> ascii) (s : string) : string :=
  match s with
  | EmptyString => EmptyString
  | String c s' => String (f c) (smap f s')
  end.

(** [String.prototype.toLowerCase] *)
Definition toLowerCase (s : string) : string := smap lower_char s.

Fixpoint trimStart (s : string) : string :=
  match s with
  | EmptyString => EmptyString
  | String c s' => if is_space c then trimStart s' else s
  end.

Fixpoint trimEnd (s : string) : string :=
  match s with
  | EmptyString => EmptyString
  | String c s' =>
      match trimEnd s' with
      | EmptyString => if is_space c then EmptyString else String c EmptyString
      | t => String c t
      end
  end.

(** [String.prototype.trim] *)
Definition trim (s : string) : string := trimEnd (trimStart s).

(** [String.prototype.includes]: [sub] occurs in [s] at some position. *)
Fixpoint includes (s sub : string) : bool :=
  String.prefix sub s ||
  match s with
  | EmptyString => false
  | String _ s' => includes s' sub
  end.

(** [String.prototype.endsWith] *)
Fixpoint endsWith (s suffix : string) : bool :=
  String.eqb s suffix ||
  match s with
  | EmptyString => false
  | String _ s' => endsWith s' suffix
  end.

(** The characters of [s] in front of its suffix [rest]. *)
Definition consumed (s rest : string) : string :=
  String.substring 0 (String.length s - String.length rest) s.

(** Decimal rendering of an integer, as a template literal renders an
    integral number. *)
Definition string_of_Z (z : Z) : string :=
  NilZero.string_of_int (Z.to_int z).

End JsString.

(* ================================================================== *)
(** ** The regular expressions of the parser *)

Module Regex.
Import JsString.

(** The fragment of ECMAScript patterns the sources use: literal
    characters, character classes, concatenation, the greedy quantifiers
    [+] and [?], and numbered capture groups. *)
Inductive regex : Type :=
| Chr (c : ascii)
| Cls (p : ascii -> bool)
| Seq (a b : regex)
| Plus (a : regex)
| Opt (a : regex)
| Grp (i : nat) (a : regex).

(** A literal run of characters. *)
Fixpoint Lit (s : string) (k : regex) : regex :=
  match s with
  | EmptyString => k
  | String c s' => Seq (Chr c) (Lit s' k)
  end.

(** The captures of a match, most recent binding first. *)
Definition captures : Type := list (nat * string).

Fixpoint capture (i : nat) (cs : captures) : option string :=
  match cs with
  | [] => None
  | (j, v) :: cs' => if Nat.eqb i j then Some v else capture i cs'
  end.

Definition orElse {A} (x : option A) (y : option A) : option A :=
  match x with Some _ => x | None => y end.

(** Backtracking matcher in continuation-passing style: [rmatch r s cs k]
    matches [r] at the front of [s] and hands the rest of the input to
    [k]; alternatives are tried in the order of the ECMAScript
    specification (greedy: one more iteration before the continuation).
    An iteration of [+] is tried at most [length s] + 1 times, more than
    any sequence of non-empty iterations can take.  A group keeps its
    binding from one iteration of [+] to the next, where ECMAScript
    resets it: the matcher is that of the patterns of the sources, none
    of which has a group under a quantifier. *)
Fixpoint rmatch (r : regex) (s : string) (cs : captures)
         (k : string -> captures -> option captures) {struct r}
  : option captures :=
  match r with
  | Chr c =>
      match s with
      | String c' s' => if Ascii.eqb c c' then k s' cs else None
      | EmptyString => None
      end
  | Cls p =>
      match s with
      | String c' s' => if p c' then k s' cs else None
      | EmptyString => None
      end
  | Seq a b => rmatch a s cs (fun s' cs' => rmatch b s' cs' k)
  | Opt a => orElse (rmatch a s cs k) (k s cs)
  | Plus a =>
      (fix iter (n : nat) (s : string) (cs : captures) : option captures :=
         match n with
         | O => None
         | S n' =>
             rmatch a s cs
               (fun s' cs' => orElse (iter n' s' cs') (k s' cs'))
         end) (S (String.length s)) s cs
  | Grp i a =>
      rmatch a s cs (fun s' cs' => k s' ((i, consumed s s') :: cs'))
  end.

(** [String.prototype.match] with a pattern that has no [g] flag: the
    leftmost position at which the pattern matches, [None] for [null]. *)
Fixpoint exec (r : regex) (s : string) : option captures :=
  orElse (rmatch r s [] (fun _ cs => Some cs))
         match s with
         | EmptyString => None
         | String _ s' => exec r s'
         end.

Definition s_plus : regex := Plus (Cls is_space).
Definition w_plus : regex := Plus (Cls is_word).
Definition d_plus : regex := Plus (Cls is_digit).

(** [/from\s+(\w+)/] *)
Definition re_from : regex := Lit "from" (Seq s_plus (Grp 1 w_plus)).
(** [/to\s+(\w+)/] *)
Definition re_to : regex := Lit "to" (Seq s_plus (Grp 1 w_plus)).
(** [/(\d+(\.\d+)?)\s+(\w+)/] *)
Definition re_amount : regex :=
  Seq (Grp 1 (Seq d_plus (Opt (Grp 2 (Seq (Chr ".") d_plus)))))
      (Seq s_plus (Grp 3 w_plus)).
(** [/pool\s+(\w+)/] *)
Definition re_pool : regex := Lit "pool" (Seq s_plus (Grp 1 w_plus)).
(** [/price\s+of\s+(\w+)/] *)
Definition re_price_of : regex :=
  Lit "price" (Seq s_plus (Lit "of" (Seq s_plus (Grp 1 w_plus)))).

End Regex.

(* ================================================================== *)
(** ** Values, thrown values and promise outcomes *)

Module JsData.

(** The values of type [any] that flow through the sources: [undefined],
    strings, integral numbers, arrays of strings, BigInts and Symbols, and
    any other value ([null], a boolean, a number that is not integral, an
    object) as far as the sources can observe it: whether it is truthy,
    what [ToString] makes of it (a string, or what it throws) and what
    [ToNumber] throws on it, if it throws.
    What a [throw] raises is an instance of [Error] with its [message], or
    any other value. *)
Inductive JsValue : Type :=
| VUndefined
| VStr (s : string)
| VNum (z : Z)
| VStrs (l : list string)
| VBigInt (z : Z)
| VSymbol (description : string)
| VOther (isTruthy : bool) (text : string + Thrown) (numeric : option Thrown)
with Thrown : Type :=
| ErrorObject (message : string)
| NonError (v : JsValue).

(** [Record<string, any>]: an object literal, properties in source order. *)
Definition JsRecord : Type := list (string * JsValue).

(** Property read [o.key] of an own property; a missing property reads as
    [undefined].  (The names the sources read are no members of
    [Object.prototype], so nothing inherited is ever read.) *)
Fixpoint prop (key : string) (o : JsRecord) : JsValue :=
  match o with
  | [] => VUndefined
  | (k, v) :: o' => if String.eqb key k then v else prop key o'
  end.

Definition truthy (v : JsValue) : bool :=
  match v with
  | VUndefined => false
  | VStr s => negb (String.eqb s "")
  | VNum z => negb (Z.eqb z 0)
  | VStrs _ => true
  | VBigInt z => negb (Z.eqb z 0)
  | VSymbol _ => true
  | VOther b _ _ => b
  end.

(** [a || b] *)
Definition or_else (a b : JsValue) : JsValue := if truthy a then a else b.

Fixpoint join_with (sep : string) (l : list string) : string :=
  match l with
  | [] => ""
  | [x] => x
  | x :: l' => x ++ sep ++ join_with sep l'
  end.

(** The instances of [TypeError] the conversions throw, with the messages
    of V8. *)
Definition symbol_to_string_error : Thrown :=
  ErrorObject "Cannot convert a Symbol value to a string".

Definition symbol_to_number_error : Thrown :=
  ErrorObject "Cannot convert a Symbol value to a number".

Definition bigint_mix_error : Thrown :=
  ErrorObject "Cannot mix BigInt and other types, use explicit conversions".

(** How a call, or the promise of an [async] call, ends. *)
Inductive Outcome (A : Type) : Type :=
| Fulfilled (a : A)
| Rejected (e : Thrown).
Arguments Fulfilled {A} a.
Arguments Rejected {A} e.

(** An ES [Map] with string keys: its entries in insertion order.
    [Map_set] on a present key replaces the value in place, on an absent
    key appends the entry. *)
Definition JsMap (V : Type) : Type := list (string * V).

Fixpoint Map_get {V} (m : JsMap V) (key : string) : option V :=
  match m with
  | [] => None
  | (k, v) :: m' => if String.eqb key k then Some v else Map_get m' key
  end.

Definition Map_has {V} (m : JsMap V) (key : string) : bool :=
  match Map_get m key with Some _ => true | None => false end.

Fixpoint Map_set {V} (m : JsMap V) (key : string) (v : V) : JsMap V :=
  match m with
  | [] => [(key, v)]
  | (k, v') :: m' =>
      if String.eqb key k then (k, v) :: m' else (k, v') :: Map_set m' key v
  end.

Definition Map_values {V} (m : JsMap V) : list V := map snd m.
Definition Map_keys {V} (m : JsMap V) : list string := map fst m.
Definition Map_size {V} (m : JsMap V) : nat := List.length m.

End JsData.
Export JsData.

(* ================================================================== *)
(** ** Data model of [context-router.ts] *)

Inductive ContextType : Type :=
| DEX | NFT_MARKETPLACE | ORACLE | GOVERNANCE | SOCIAL | IDENTITY | STORAGE.

Definition ContextType_eqb (a b : ContextType) : bool :=
  match a, b with
  | DEX, DEX | NFT_MARKETPLACE, NFT_MARKETPLACE | ORACLE, ORACLE
  | GOVERNANCE, GOVERNANCE | SOCIAL, SOCIAL | IDENTITY, IDENTITY
  | STORAGE, STORAGE => true
  | _, _ => false
  end.

(** [interface ContextDefinition]; [schema] is kept as the source text of
    the sub-mapping, which no operation inspects.  ([type] is a keyword of
    Rocq, hence [type_].) *)
Record ContextDefinition : Type := {
  id : string;
  name : string;
  description : string;
  type_ : ContextType;
  capabilities : list string;
  endpoint : option string;
  pubkey : option string;
  authRequired : bool;
  schema : option string
}.

(* ================================================================== *)
(** ** Run-time state and the monad of effectful calls *)

Inductive ConsoleLine : Type :=
| ConsoleLog (text : string)
| ConsoleWarn (text : string)
| ConsoleError (text : string) (error : Thrown).

(** The state every piece of code can touch: the lines written to the
    console (oldest first) and how often the clock has been read. *)
Record World : Type := {
  console : list ConsoleLine;
  clockReads : nat
}.

(** The state of a router instance: its [private contexts] field, which
    only the methods of the class reach, next to the world. *)
Record RouterState : Type := {
  contexts : JsMap ContextDefinition;
  world : World
}.

(** A call over the state [S]: it ends fulfilled or rejected, and its
    effects on the state stay in either case. *)
Definition Eff (S A : Type) : Type := S -> Outcome A * S.

(** Code outside the router, and the methods of the router. *)
Definition Js : Type -> Type := Eff World.
Definition RouterJs : Type -> Type := Eff RouterState.

Definition ret {S A} (a : A) : Eff S A := fun st => (Fulfilled a, st).

Definition throw {S A} (e : Thrown) : Eff S A := fun st => (Rejected e, st).

Definition bind {S A B} (m : Eff S A) (f : A -> Eff S B) : Eff S B :=
  fun st =>
    match m st with
    | (Fulfilled a, st') => f a st'
    | (Rejected e, st') => (Rejected e, st')
    end.

(** [try { body } catch (error) { handler }] *)
Definition try_catch {S A} (body : Eff S A) (handler : Thrown -> Eff S A)
  : Eff S A :=
  fun st =>
    match body st with
    | (Fulfilled a, st') => (Fulfilled a, st')
    | (Rejected e, st') => handler e st'
    end.

(** A call of a host function, which returns or throws. *)
Definition call {S A} (o : Outcome A) : Eff S A := fun st => (o, st).

(** An [async] function that returns a promise settles as that promise. *)
Definition adopt {S A} (m : Eff S (Eff S A)) : Eff S A :=
  bind m (fun p => p).

(** A call from a method of the router into code outside it. *)
Definition outside {A} (m : Js A) : RouterJs A :=
  fun st =>
    let (o, w) := m (world st) in
    (o, {| contexts := contexts st; world := w |}).

Definition get_contexts : RouterJs (JsMap ContextDefinition) :=
  fun st => (Fulfilled (contexts st), st).

Definition put_contexts (m : JsMap ContextDefinition) : RouterJs unit :=
  fun st => (Fulfilled tt, {| contexts := m; world := world st |}).

Definition write_console (l : ConsoleLine) : Js unit :=
  fun w => (Fulfilled tt,
            {| console := console w ++ [l]; clockReads := clockReads w |}).

Declare Scope js_scope.
Delimit Scope js_scope with js.
Notation "x <- m ;; k" := (bind m (fun x => k))
  (at level 61, m at next level, right associativity) : js_scope.
Notation "m ;;; k" := (bind m (fun _ => k))
  (at level 61, right associativity) : js_scope.
Local Open Scope js_scope.

(** [for (const x of xs) { body }] *)
Fixpoint for_of {S A} (xs : list A) (body : A -> Eff S unit) : Eff S unit :=
  match xs with
  | [] => ret tt
  | x :: xs' => body x ;;; for_of xs' body
  end.

(** The packages the sources import. *)
Class Host : Type := {
  (** [fs.readdirSync(dir)] *)
  readdirSync : string -> Outcome (list string);
  (** [fs.readFileSync(path, 'utf8')] *)
  readFileSync : string -> Outcome string;
  (** [path.join(dir, file)] *)
  path_join : string -> string -> string;
  (** [JSON.parse] and [yaml.parse], their result taken at the declared
      type [ContextDefinition] *)
  JSON_parse : string -> Outcome ContextDefinition;
  yaml_parse : string -> Outcome ContextDefinition;
  (** [new PublicKey(value)]: constructs a key (here: its base-58 text) or
      throws *)
  PublicKey_new : JsValue -> Outcome string;
  (** [new Date().toISOString()] at the n-th reading of the clock *)
  toISOString : nat -> string;
  (** the text of [${n}] for a number beyond the safe integers *)
  number_text : Z -> string;
  (** the text of [${x / 100}], when the division does not throw *)
  div100_text : JsValue -> string;
  (** the text of [(parseFloat(price) * bps / 10000).toFixed(4)], when
      [parseFloat] does not throw *)
  fees_toFixed4 : JsValue -> Z -> string
}.

(** The string a template literal substitutes for [${v}]: [ToString(v)],
    which throws on a Symbol.  An integer up to 2^53 in magnitude is
    printed in plain digits. *)
Definition toStr `{Host} (v : JsValue) : Outcome string :=
  match v with
  | VUndefined => Fulfilled "undefined"
  | VStr s => Fulfilled s
  | VNum z =>
      Fulfilled (if (Z.abs z <=? 9007199254740992)%Z
                 then JsString.string_of_Z z else number_text z)
  | VStrs l => Fulfilled (join_with "," l)
  | VBigInt z => Fulfilled (JsString.string_of_Z z)
  | VSymbol _ => Rejected symbol_to_string_error
  | VOther _ (inl s) _ => Fulfilled s
  | VOther _ (inr e) _ => Rejected e
  end.

(** [${x / 100}]: the division throws on a BigInt (mixed with a number)
    and on a Symbol, and when [ToNumber] throws; otherwise its result is
    a number. *)
Definition div100 `{Host} (x : JsValue) : Outcome string :=
  match x with
  | VBigInt _ => Rejected bigint_mix_error
  | VSymbol _ => Rejected symbol_to_number_error
  | VOther _ _ (Some e) => Rejected e
  | _ => Fulfilled (div100_text x)
  end.

(** [(parseFloat(price) * bps / 10000).toFixed(4)]: [parseFloat] converts
    its argument to a string first. *)
Definition fees `{Host} (price : JsValue) (bps : Z) : Outcome string :=
  match toStr price with
  | Fulfilled _ => Fulfilled (fees_toFixed4 price bps)
  | Rejected e => Rejected e
  end.

(** [new Date().toISOString()] *)
Definition now_iso `{Host} : Js string :=
  fun w => (Fulfilled (toISOString (clockReads w)),
            {| console := console w; clockReads := S (clockReads w) |}).

(* ================================================================== *)
(** ** [src/nlp/instruction-parser.ts] *)

Module Parser.
Import JsString Regex.

Record ParsedInstruction : Type := {
  action : string;
  params : JsRecord;
  context : option string;
  confidence : Q
}.

(** [m ? m[1] : dflt] *)
Definition group1_or (m : option captures) (dflt : string) : JsValue :=
  match m with
  | Some cs =>
      match capture 1 cs with Some v => VStr v | None => VUndefined end
  | None => VStr dflt
  end.

Definition parseInstruction (instruction : string) : Js ParsedInstruction :=
  let instruction := trim (toLowerCase instruction) in
  if includes instruction "swap" || includes instruction "exchange"
     || includes instruction "trade" then
    let sourceTokenMatch := exec re_from instruction in
    let targetTokenMatch := exec re_to instruction in
    let amountMatch := exec re_amount instruction in
    ret {| action := "swap";
           params := [("sourceToken", group1_or sourceTokenMatch "SOL");
                      ("targetToken", group1_or targetTokenMatch "USDC");
                      ("amount", group1_or amountMatch "1.0");
                      ("slippageBps", VNum 50)];
           context := None;
           confidence := 0.85 |}
  else if includes instruction "add liquidity"
          || includes instruction "provide liquidity" then
    let poolMatch := exec re_pool instruction in
    ret {| action := "addLiquidity";
           params := [("poolId", group1_or poolMatch "default");
                      ("tokenA", VStr "SOL");
                      ("amountA", VStr "1.0");
                      ("tokenB", VStr "USDC");
                      ("amountB", VStr "10.0")];
           context := None;
           confidence := 0.8 |}
  else if includes instruction "price" || includes instruction "value"
          || includes instruction "worth" then
    let tokenMatch := exec re_price_of instruction in
    ret {| action := "checkPrice";
           params := [("token", group1_or tokenMatch "SOL")];
           context := None;
           confidence := 0.9 |}
  else
    ret {| action := "unknown";
           params := [];
           context := None;
           confidence := 0.3 |}.

End Parser.

(* ================================================================== *)
(** ** [src/agent-template.ts] and the two agents *)

Module Agents.
Import Parser.

(** [interface AgentResponse] *)
Record AgentError : Type := {
  code : Z;
  error_message : string
}.

Record AgentResponse : Type := {
  success : bool;
  message : string;
  data : option JsRecord;
  transactionId : option string;
  error : option AgentError
}.

(** [abstract class Agent]: the methods the router and the dispatch of
    instructions use ([executeTransaction], which submits to the chain,
    is left out). *)
Class Agent (A : Type) : Type := {
  getName : A -> string;
  getDescription : A -> string;
  getCapabilities : A -> list string;
  processInstruction : A -> string -> Js AgentResponse;
  getState : A -> Js JsRecord
}.

(** [interface AgentContext]; a [PublicKey] is kept as its base-58 text,
    which is all that [toString()] shows of it. *)
Record AgentContext : Type := {
  ctx_agentId : string;
  ctx_contextId : option string
}.

Definition unsupported (p : ParsedInstruction) : AgentResponse :=
  {| success := false;
     message := "Unsupported action: " ++ action p;
     data := None;
     transactionId := None;
     error := Some {| code := 400;
                      error_message :=
                        "The requested action is not supported by this agent" |} |}.

(** The [catch] clause of [processInstruction]. *)
Definition failed (error : Thrown) : AgentResponse :=
  {| success := false;
     message := "Failed to process instruction";
     data := None;
     transactionId := None;
     error := Some {| code := 500;
                      error_message :=
                        match error with
                        | ErrorObject m => m
                        | NonError _ => "Unknown error"
                        end |} |}.

Section WithHost.
Context `{Host}.
Local Open Scope js_scope.

(** The binding of the imported [parseInstruction]: the parser above,
    or the mock a test suite installs in its place. *)
Variable parse : string -> Js ParsedInstruction.

(* ---------------------------------------------------------------- *)
(** *** [class SolanaDeFiAgent] *)

Record DeFiAgentContext : Type := {
  defi_base : AgentContext;
  ctx_supportedDexes : option (list string);
  ctx_defaultSlippageBps : option Z
}.

Record SolanaDeFiAgent : Type := {
  defi_agentId : string;
  supportedDexes : list string;
  defaultSlippageBps : Z
}.

(** The constructor; [x || dflt] falls back on [undefined] and on 0. *)
Definition new_SolanaDeFiAgent (c : DeFiAgentContext) : SolanaDeFiAgent :=
  {| defi_agentId := ctx_agentId (defi_base c);
     supportedDexes :=
       match ctx_supportedDexes c with
       | Some l => l
       | None => ["Jupiter"; "Raydium"]
       end;
     defaultSlippageBps :=
       match ctx_defaultSlippageBps c with
       | Some z => if Z.eqb z 0 then 50%Z else z
       | None => 50%Z
       end |}.

(** The handlers are [async]: the conversions of the template literal
    of [message] run in the order of its substitutions, before the clock
    is read for [data], and what one of them throws rejects the promise
    of the handler. *)
Definition handleSwap (this : SolanaDeFiAgent)
           (sourceToken targetToken amount slippageBps : JsValue)
  : Js AgentResponse :=
  amountText <- call (toStr amount) ;;
  sourceText <- call (toStr sourceToken) ;;
  targetText <- call (toStr targetToken) ;;
  percent <- call (div100 slippageBps) ;;
  ret {| success := true;
         message := "Simulated swap of " ++ amountText ++ " "
                    ++ sourceText ++ " to " ++ targetText
                    ++ " with " ++ percent ++ "% slippage";
         data := Some [("sourceToken", sourceToken);
                       ("targetToken", targetToken);
                       ("amount", amount);
                       ("estimatedOutput", VStr "123.45");
                       ("route", VStr "jupiter_v4")];
         transactionId := None;
         error := None |}.

Definition handleAddLiquidity (this : SolanaDeFiAgent)
           (poolId tokenA amountA tokenB amountB : JsValue)
  : Js AgentResponse :=
  poolText <- call (toStr poolId) ;;
  ret {| success := true;
         message := "Added liquidity to pool " ++ poolText;
         data := Some [("poolId", poolId);
                       ("tokenA", tokenA);
                       ("amountA", amountA);
                       ("tokenB", tokenB);
                       ("amountB", amountB);
                       ("lpTokens", VStr "10.5")];
         transactionId := None;
         error := None |}.

Definition handlePriceCheck (this : SolanaDeFiAgent) (token : JsValue)
  : Js AgentResponse :=
  tokenText <- call (toStr token) ;;
  timestamp <- now_iso ;;
  ret {| success := true;
         message := "Current price for " ++ tokenText;
         data := Some [("token", token);
                       ("priceUsd", VStr "1.23");
                       ("timestamp", VStr timestamp)];
         transactionId := None;
         error := None |}.

(** The [try] block awaits the parser and then returns, without
    awaiting it, the promise of the handler: the [catch] clause sees
    what the parser throws, and the call settles as the handler does. *)
Definition defi_processInstruction (this : SolanaDeFiAgent)
           (instruction : string) : Js AgentResponse :=
  adopt
    (try_catch
       (parsedInstruction <- parse instruction ;;
        let p := params parsedInstruction in
        if String.eqb (action parsedInstruction) "swap" then
          ret (handleSwap this
                 (prop "sourceToken" p) (prop "targetToken" p)
                 (prop "amount" p)
                 (or_else (prop "slippageBps" p)
                          (VNum (defaultSlippageBps this))))
        else if String.eqb (action parsedInstruction) "addLiquidity" then
          ret (handleAddLiquidity this
                 (prop "poolId" p) (prop "tokenA" p) (prop "amountA" p)
                 (prop "tokenB" p) (prop "amountB" p))
        else if String.eqb (action parsedInstruction) "checkPrice" then
          ret (handlePriceCheck this (prop "token" p))
        else
          ret (ret (unsupported parsedInstruction)))
       (fun error => ret (ret (failed error)))).

Definition defi_getState (this : SolanaDeFiAgent) : Js JsRecord :=
  ret [("agentId", VStr (defi_agentId this));
       ("supportedDexes", VStrs (supportedDexes this));
       ("defaultSlippageBps", VNum (defaultSlippageBps this))].

Definition SolanaDeFiAgent_methods : Agent SolanaDeFiAgent := {|
  getName := fun _ => "Solana DeFi Agent";
  getDescription := fun _ =>
    "An agent specialized for DeFi operations on Solana, including swaps, liquidity provision, and yield farming.";
  getCapabilities := fun _ =>
    ["Token Swaps"; "Liquidity Provision"; "Yield Farming";
     "Price Monitoring"; "Portfolio Management"];
  processInstruction := defi_processInstruction;
  getState := defi_getState
|}.

(* ---------------------------------------------------------------- *)
(** *** [class NFTMarketAgent] *)

Record NFTAgentContext : Type := {
  nft_base : AgentContext;
  ctx_supportedMarketplaces : option (list string);
  ctx_defaultRoyaltyBps : option Z
}.

Record NFTMarketAgent : Type := {
  nft_agentId : string;
  supportedMarketplaces : list string;
  defaultRoyaltyBps : Z
}.

Definition new_NFTMarketAgent (c : NFTAgentContext) : NFTMarketAgent :=
  {| nft_agentId := ctx_agentId (nft_base c);
     supportedMarketplaces :=
       match ctx_supportedMarketplaces c with
       | Some l => l
       | None => ["Magic Eden"; "Tensor"]
       end;
     defaultRoyaltyBps :=
       match ctx_defaultRoyaltyBps c with
       | Some z => if Z.eqb z 0 then 500%Z else z
       | None => 500%Z
       end |}.

(** [this.supportedMarketplaces[0]] *)
Definition firstMarketplace (this : NFTMarketAgent) : JsValue :=
  match supportedMarketplaces this with
  | m :: _ => VStr m
  | [] => VUndefined
  end.

(** The handlers, [async] as those of [SolanaDeFiAgent]. *)
Definition handleListNFT (this : NFTMarketAgent)
           (nftMint price marketplace : JsValue) : Js AgentResponse :=
  mintText <- call (toStr nftMint) ;;
  priceText <- call (toStr price) ;;
  marketplaceText <- call (toStr marketplace) ;;
  listingTime <- now_iso ;;
  royalty <- call (fees price (defaultRoyaltyBps this)) ;;
  ret {| success := true;
         message := "Listed NFT " ++ mintText ++ " for "
                    ++ priceText ++ " SOL on " ++ marketplaceText;
         data := Some [("nftMint", nftMint);
                       ("price", price);
                       ("marketplace", marketplace);
                       ("listingTime", VStr listingTime);
                       ("fees", VStr royalty)];
         transactionId := None;
         error := None |}.

Definition handleBuyNFT (this : NFTMarketAgent)
           (nftMint maxPrice : JsValue) : Js AgentResponse :=
  mintText <- call (toStr nftMint) ;;
  priceText <- call (toStr maxPrice) ;;
  purchaseTime <- now_iso ;;
  ret {| success := true;
         message := "Purchased NFT " ++ mintText ++ " for "
                    ++ priceText ++ " SOL";
         data := Some [("nftMint", nftMint);
                       ("pricePaid", maxPrice);
                       ("marketplace", firstMarketplace this);
                       ("purchaseTime", VStr purchaseTime)];
         transactionId := None;
         error := None |}.

Definition handleCollectionCheck (this : NFTMarketAgent)
           (collectionAddress : JsValue) : Js AgentResponse :=
  collectionText <- call (toStr collectionAddress) ;;
  lastUpdated <- now_iso ;;
  ret {| success := true;
         message := "Information about collection " ++ collectionText;
         data := Some [("collectionAddress", collectionAddress);
                       ("floorPrice", VStr "10.5");
                       ("totalVolume", VStr "1250.75");
                       ("items", VNum 10000);
                       ("owners", VNum 3500);
                       ("lastUpdated", VStr lastUpdated)];
         transactionId := None;
         error := None |}.

Definition handleMintNFT (this : NFTMarketAgent)
           (metadataUri name symbol : JsValue) : Js AgentResponse :=
  nameText <- call (toStr name) ;;
  symbolText <- call (toStr symbol) ;;
  mintTime <- now_iso ;;
  ret {| success := true;
         message := "Minted new NFT: " ++ nameText
                    ++ " (" ++ symbolText ++ ")";
         data := Some [("name", name);
                       ("symbol", symbol);
                       ("metadataUri", metadataUri);
                       ("mintAddress", VStr "Abc123...");
                       ("mintTime", VStr mintTime);
                       ("owner", VStr (nft_agentId this))];
         transactionId := None;
         error := None |}.

Definition nft_processInstruction (this : NFTMarketAgent)
           (instruction : string) : Js AgentResponse :=
  adopt
    (try_catch
       (parsedInstruction <- parse instruction ;;
        let p := params parsedInstruction in
        if String.eqb (action parsedInstruction) "listNFT" then
          ret (handleListNFT this
                 (prop "nftMint" p) (prop "price" p)
                 (or_else (prop "marketplace" p) (firstMarketplace this)))
        else if String.eqb (action parsedInstruction) "buyNFT" then
          ret (handleBuyNFT this (prop "nftMint" p) (prop "maxPrice" p))
        else if String.eqb (action parsedInstruction) "checkCollection" then
          ret (handleCollectionCheck this (prop "collectionAddress" p))
        else if String.eqb (action parsedInstruction) "mintNFT" then
          ret (handleMintNFT this
                 (prop "metadataUri" p) (prop "name" p) (prop "symbol" p))
        else
          ret (ret (unsupported parsedInstruction)))
       (fun error => ret (ret (failed error)))).

Definition nft_getState (this : NFTMarketAgent) : Js JsRecord :=
  ret [("agentId", VStr (nft_agentId this));
       ("supportedMarketplaces", VStrs (supportedMarketplaces this));
       ("defaultRoyaltyBps", VNum (defaultRoyaltyBps this))].

Definition NFTMarketAgent_methods : Agent NFTMarketAgent := {|
  getName := fun _ => "Solana NFT Market Agent";
  getDescription := fun _ =>
    "An agent specialized for NFT operations on Solana, including buying, selling, minting, and tracking collections.";
  getCapabilities := fun _ =>
    ["NFT Listing"; "NFT Buying"; "Collection Tracking";
     "Rarity Checking"; "Minting New NFTs"; "Royalty Payments"];
  processInstruction := nft_processInstruction;
  getState := nft_getState
|}.

End WithHost.

(** The two classes as the modules of the repository link them: with the
    parser of [instruction-parser.ts]. *)
#[export] Instance SolanaDeFiAgent_Agent `{Host} : Agent SolanaDeFiAgent :=
  SolanaDeFiAgent_methods parseInstruction.

#[export] Instance NFTMarketAgent_Agent `{Host} : Agent NFTMarketAgent :=
  NFTMarketAgent_methods parseInstruction.

End Agents.

(* ================================================================== *)
(** ** [src/context-router.ts]: [class ContextRouter] *)

Module Router.
Import JsString Agents.

(** The simulated response of [routeRequest]. *)
Record ResponseData : Type := {
  resp_message : string;
  requestSummary : JsRecord
}.

Record RouteResponse : Type := {
  resp_contextId : string;
  timestamp : string;
  status : string;
  resp_data : ResponseData
}.

(** The two errors [routeRequest] constructs. *)
Definition permissionDenied (agentName contextId : string) : Thrown :=
  ErrorObject ("Agent " ++ agentName
               ++ " does not have permission to access context "
               ++ contextId).

Definition contextNotFound (contextId : string) : Thrown :=
  ErrorObject ("Context " ++ contextId ++ " not found").

(** The test of the loop body of [findContextsByCapabilities]:
    [capabilities.every(cap => context.capabilities.some(contextCap =>
       contextCap.toLowerCase() === cap.toLowerCase()))] *)
Definition hasAllCapabilities (context : ContextDefinition)
           (required : list string) : bool :=
  forallb (fun cap =>
             existsb (fun contextCap =>
                        String.eqb (toLowerCase contextCap) (toLowerCase cap))
                     (capabilities context))
          required.

(** The files [loadContexts] reads. *)
Definition recognized (file : string) : bool :=
  endsWith file ".yaml" || endsWith file ".yml" || endsWith file ".json".

Section WithHost.
Context `{Host}.
Local Open Scope js_scope.

Definition registerContext (context : ContextDefinition)
  : RouterJs unit :=
  m <- get_contexts ;;
  (if Map_has m (id context)
   then outside
          (write_console
             (ConsoleWarn ("Context with ID " ++ id context
                           ++ " already registered, overwriting")))
   else ret tt) ;;;
  m <- get_contexts ;;
  put_contexts (Map_set m (id context) context).

(** The body of the loop of [loadContexts] for one directory entry. *)
Definition loadFile (contextDir file : string) : RouterJs unit :=
  if recognized file then
    let filePath := path_join contextDir file in
    content <- call (readFileSync filePath) ;;
    contextDef <- (if endsWith file ".json"
                   then call (JSON_parse content)
                   else call (yaml_parse content)) ;;
    registerContext contextDef
  else ret tt.

Definition loadContexts (contextDir : string) : RouterJs unit :=
  try_catch
    (files <- call (readdirSync contextDir) ;;
     for_of files (loadFile contextDir) ;;;
     m <- get_contexts ;;
     outside
       (write_console
          (ConsoleLog ("Loaded " ++ string_of_Z (Z.of_nat (Map_size m))
                       ++ " context definitions"))))
    (fun error =>
       outside
         (write_console
            (ConsoleError "Failed to load context definitions:" error)) ;;;
       throw error).

Definition findContextsByCapabilities (required : list string)
  : RouterJs (list ContextDefinition) :=
  m <- get_contexts ;;
  ret (fold_left
         (fun matches context =>
            if hasAllCapabilities context required
            then matches ++ [context]
            else matches)
         (Map_values m) []).

Definition findContextsByType (type : ContextType)
  : RouterJs (list ContextDefinition) :=
  m <- get_contexts ;;
  ret (filter (fun context => ContextType_eqb (type_ context) type)
              (Map_values m)).

Definition checkPermission {A} {AgentA : Agent A} (agent : A)
           (contextId : string)
  : RouterJs bool :=
  m <- get_contexts ;;
  match Map_get m contextId with
  | None => ret false
  | Some context =>
      agentState <- outside (getState agent) ;;
      agentId <- call (PublicKey_new (prop "agentId" agentState)) ;;
      ret true
  end.

Definition routeRequest {A} {AgentA : Agent A} (agent : A)
           (contextId : string)
           (request : JsRecord) : RouterJs RouteResponse :=
  hasPermission <- checkPermission agent contextId ;;
  if negb hasPermission then
    throw (permissionDenied (getName agent) contextId)
  else
    m <- get_contexts ;;
    match Map_get m contextId with
    | None => throw (contextNotFound contextId)
    | Some context =>
        timestamp <- outside now_iso ;;
        ret {| resp_contextId := contextId;
               timestamp := timestamp;
               status := "success";
               resp_data :=
                 {| resp_message := "Processed request to " ++ name context;
                    requestSummary := request |} |}
    end.

End WithHost.

End Router.

(* ================================================================== *)
(** * Vocabulary of the properties *)

Import JsString Regex Parser Agents Router.
Local Open Scope js_scope.

(** ** Strings *)

(** A string with no white space in front. *)
Definition starts_clean (s : string) : Prop :=
  match s with
  | EmptyString => True
  | String c _ => is_space c = false
  end.

(** Two code units are the same letter when they are equal or one is the
    upper-case form of the other. *)
Definition same_letter (a b : ascii) : Prop :=
  a = b
  \/ (is_upper a = true /\ code_unit b = (code_unit a + 32)%N)
  \/ (is_upper b = true /\ code_unit a = (code_unit b + 32)%N).

(** Case-insensitive equality of strings, position by position. *)
Inductive equal_ignoring_case : string -> string -> Prop :=
| eic_empty : equal_ignoring_case EmptyString EmptyString
| eic_letter a b s t :
    same_letter a b -> equal_ignoring_case s t ->
    equal_ignoring_case (String a s) (String b t).

(** ** Dispatch *)

(** The [case] labels of the two [switch] statements. *)
Definition defi_actions : list string :=
  ["swap"; "addLiquidity"; "checkPrice"].

Definition nft_actions : list string :=
  ["listNFT"; "buyNFT"; "checkCollection"; "mintNFT"].

Definition recognizes (actions : list string) (a : string) : bool :=
  existsb (String.eqb a) actions.

(** A parser as the test suites bind one in place of the imported
    [parseInstruction]: it resolves, whatever the instruction, to a swap
    whose amount is a Symbol. *)
Definition symbolSwap : ParsedInstruction :=
  {| action := "swap";
     params := [("sourceToken", VStr "SOL");
                ("targetToken", VStr "USDC");
                ("amount", VSymbol "amount")];
     context := None;
     confidence := 0.9 |}.

Definition symbolParser (instruction : string) : Js ParsedInstruction :=
  ret symbolSwap.

(** ** The registry *)

(** A definition covers a list of required capabilities when each of them
    equals, up to case, one of its own. *)
Definition covers (d : ContextDefinition) (required : list string) : Prop :=
  forall cap, In cap required ->
    exists c, In c (capabilities d) /\ equal_ignoring_case c cap.

(** [contexts.set(d.id, d)] *)
Definition register_in (m : JsMap ContextDefinition) (d : ContextDefinition)
  : JsMap ContextDefinition :=
  Map_set m (id d) d.

(** The registered definitions that carry the id [k]. *)
Definition definitions_with_id (k : string) (m : JsMap ContextDefinition)
  : list ContextDefinition :=
  filter (fun d => String.eqb (id d) k) (Map_values m).

(** Every key occurs once, and is the id of the definition stored under it. *)
Definition well_keyed (m : JsMap ContextDefinition) : Prop :=
  NoDup (Map_keys m) /\ Forall (fun e => fst e = id (snd e)) m.

(** A call that keeps a property of the registry, however it ends. *)
Definition keeps (P : JsMap ContextDefinition -> Prop) {A}
           (m : RouterJs A) : Prop :=
  forall st, P (contexts st) -> P (contexts (snd (m st))).

Section RegistryVocabulary.
Context `{Host}.

(** The states a router instance goes through: created with an empty map,
    then changed by its two mutating methods, while code outside the router
    (and its own queries) changes the world only. *)
Inductive reachable : RouterState -> Prop :=
| reach_new w : reachable {| contexts := []; world := w |}
| reach_register st d :
    reachable st -> reachable (snd (registerContext d st))
| reach_load st dir :
    reachable st -> reachable (snd (loadContexts dir st))
| reach_world st w :
    reachable st -> reachable {| contexts := contexts st; world := w |}.

(** What one directory entry contributes: the definition read and parsed
    from it, or the error of reading or parsing. *)
Definition definitionOf (contextDir file : string)
  : Outcome ContextDefinition :=
  match readFileSync (path_join contextDir file) with
  | Fulfilled content =>
      if endsWith file ".json" then JSON_parse content
      else yaml_parse content
  | Rejected e => Rejected e
  end.

(** An entry that does not stop the load: not a recognized file, or one
    that yields a definition. *)
Definition loads (contextDir file : string) : Prop :=
  recognized file = false
  \/ exists d, definitionOf contextDir file = Fulfilled d.

(** A recognized file that cannot be read or parsed. *)
Definition fails_with (contextDir file : string) (e : Thrown) : Prop :=
  recognized file = true /\ definitionOf contextDir file = Rejected e.

(** The definitions of the recognized files of a list, in order. *)
Fixpoint definitionsOf (contextDir : string) (files : list string)
  : list ContextDefinition :=
  match files with
  | [] => []
  | f :: fs =>
      if recognized f then
        match definitionOf contextDir f with
        | Fulfilled d => d :: definitionsOf contextDir fs
        | Rejected _ => definitionsOf contextDir fs
        end
      else definitionsOf contextDir fs
  end.

(** [routeRequest] with the statement of its context-not-found branch
    replaced by [dead]. *)
Definition routeRequest_otherwise {A} {AgentA : Agent A}
           (dead : RouterJs RouteResponse)
           (agent : A) (contextId : string) (request : JsRecord)
  : RouterJs RouteResponse :=
  hasPermission <- checkPermission agent contextId ;;
  if negb hasPermission then
    throw (permissionDenied (getName agent) contextId)
  else
    m <- get_contexts ;;
    match Map_get m contextId with
    | None => dead
    | Some context =>
        timestamp <- outside now_iso ;;
        ret {| resp_contextId := contextId;
               timestamp := timestamp;
               status := "success";
               resp_data :=
                 {| resp_message := "Processed request to " ++ name context;
                    requestSummary := request |} |}
    end.

End RegistryVocabulary.

(** ** Objects for the examples *)

(** An agent of some other package, given by what its methods return. *)
Record ScriptedAgent : Type := {
  scripted_name : string;
  scripted_state : Outcome JsRecord
}.

#[export] Instance ScriptedAgent_Agent : Agent ScriptedAgent := {|
  getName := scripted_name;
  getDescription := fun _ => "A scripted agent";
  getCapabilities := fun _ => [];
  processInstruction := fun _ _ => throw (ErrorObject "Not implemented");
  getState := fun a => call (scripted_state a)
|}.

(** An agent whose state cannot be read: its RPC connection is down. *)
Definition offlineAgent : ScriptedAgent :=
  {| scripted_name := "Offline Agent";
     scripted_state := Rejected (ErrorObject "failed to fetch agent state") |}.

(** [contexts/jupiter-dex.yaml] *)
Definition jupiter : ContextDefinition :=
  {| id := "jupiter-dex-v4";
     name := "Jupiter Aggregator";
     description := "A liquidity aggregator for Solana that sources liquidity from various DEXes to provide the best swap rates";
     type_ := DEX;
     capabilities := ["token_swaps"; "route_optimization"; "price_discovery";
                      "slippage_protection"];
     endpoint := Some "https://quote-api.jup.ag/v4";
     pubkey := Some "JUP4Fb2cqiRUcaTHdrPC8h2gNsA2ETXiPDD33WcGuJB";
     authRequired := false;
     schema := Some "swapQuote, swap" |}.

(** A second definition under the same id. *)
Definition jupiter_v6 : ContextDefinition :=
  {| id := "jupiter-dex-v4";
     name := "Jupiter Aggregator v6";
     description := "Replacement entry";
     type_ := DEX;
     capabilities := ["Token_Swaps"];
     endpoint := Some "https://quote-api.jup.ag/v6";
     pubkey := None;
     authRequired := true;
     schema := None |}.

Definition enoent : Thrown :=
  ErrorObject "ENOENT: no such file or directory".

Definition bad_json : Thrown :=
  ErrorObject "Unexpected end of JSON input".

(** A host with one directory, [contexts], that holds a text file, the
    definition of Jupiter and a truncated JSON file, in this order. *)
Definition demoHost : Host := {|
  readdirSync := fun dir =>
    if String.eqb dir "contexts"
    then Fulfilled ["README.md"; "jupiter-dex.yaml"; "broken.json"]
    else Rejected enoent;
  path_join := fun dir file => (dir ++ "/" ++ file)%string;
  readFileSync := fun p =>
    if String.eqb p "contexts/jupiter-dex.yaml" then Fulfilled "id: jupiter-dex-v4"
    else if String.eqb p "contexts/broken.json" then Fulfilled "{"
    else Rejected enoent;
  JSON_parse := fun _ => Rejected bad_json;
  yaml_parse := fun content =>
    if String.eqb content "id: jupiter-dex-v4" then Fulfilled jupiter
    else Rejected (ErrorObject "YAMLParseError");
  PublicKey_new := fun v =>
    match v with
    | VStr s =>
        if Nat.leb 32 (String.length s) && Nat.leb (String.length s) 44
        then Fulfilled s
        else Rejected (ErrorObject "Invalid public key input")
    | _ => Rejected (ErrorObject "Invalid public key input")
    end;
  toISOString := fun _ => "2024-01-01T00:00:00.000Z";
  number_text := fun _ => "1e+21";
  div100_text := fun v =>
    match v with
    | VNum 50 => "0.5"
    | _ => "NaN"
    end;
  fees_toFixed4 := fun _ _ => "0.5000"
|}.

Definition defiAgent : SolanaDeFiAgent :=
  new_SolanaDeFiAgent
    {| defi_base := {| ctx_agentId := "4Nd1mYQzvgV8Vr3Z3nYb7pD6T5K2wXcUuR9aBqJx1eFh";
                       ctx_contextId := None |};
       ctx_supportedDexes := Some ["Jupiter"; "Raydium"];
       ctx_defaultSlippageBps := Some 50%Z |}.

Definition quietWorld : World := {| console := []; clockReads := 0 |}.

(** A router as its constructor leaves it. *)
Definition newRouter : RouterState :=
  {| contexts := []; world := quietWorld |}.

(** The new router after [registerContext(jupiter)]. *)
Definition jupiterRouter : RouterState :=
  snd (registerContext jupiter newRouter).

(** ** Proof automation *)

Ltac each_code_unit c :=
  destruct c as [[] [] [] [] [] [] [] []]; vm_compute; try reflexivity.

(* ================================================================== *)
(** * Further functions of the sources *)

(** ** [instruction-parser.ts]: [enhanceWithLLM] *)

(** [p.confidence = c] *)
Definition with_confidence (p : ParsedInstruction) (c : Q)
  : ParsedInstruction :=
  {| action := action p; params := params p; context := context p;
     confidence := c |}.

(** [a < b] on numbers that are not NaN.  A rational stands for the
    number its decimal numeral denotes in the source; on the literals of
    the sources (0.3, 0.7, 0.8, 0.85, 0.9) the exact comparison is the
    comparison of the doubles. *)
Definition Q_ltb (a b : Q) : bool := negb (Qle_bool b a).

(** [enhanceWithLLM(parsedInstruction)]: the object it returns is the
    argument, updated in place. *)
Definition enhanceWithLLM (parsedInstruction : ParsedInstruction)
  : Js ParsedInstruction :=
  ret (if Q_ltb (confidence parsedInstruction) 0.7
       then with_confidence parsedInstruction 0.8
       else parsedInstruction).

(** ** [executeTransaction] of the two agents *)

Section Transactions.
Variables Transaction Keypair : Type.

(** [sendAndConfirmTransaction(this.connection, transaction, [wallet])]
    of web3.js. *)
Variable sendAndConfirmTransaction : Transaction -> Keypair -> Outcome string.

(** The field [private wallet: Keypair | null = null], which no method of
    either class assigns. *)
Definition defi_wallet (this : SolanaDeFiAgent) : option Keypair := None.
Definition nft_wallet (this : NFTMarketAgent) : option Keypair := None.

(** The body of [executeTransaction], the same text in both classes, for
    the value [wallet] of [this.wallet]. *)
Definition executeTransaction_with (wallet : option Keypair)
           (transaction : Transaction) : Js string :=
  try_catch
    (match wallet with
     | None =>
         throw (ErrorObject "No wallet configured for transaction execution")
     | Some w =>
         signature <- call (sendAndConfirmTransaction transaction w) ;;
         ret signature
     end)
    (fun error =>
       throw (ErrorObject
                ("Transaction execution failed: "
                 ++ match error with
                    | ErrorObject m => m
                    | NonError _ => "Unknown error"
                    end))).

Definition defi_executeTransaction (this : SolanaDeFiAgent)
           (transaction : Transaction) : Js string :=
  executeTransaction_with (defi_wallet this) transaction.

Definition nft_executeTransaction (this : NFTMarketAgent)
           (transaction : Transaction) : Js string :=
  executeTransaction_with (nft_wallet this) transaction.

End Transactions.

(** ** Vocabulary of the further properties *)

(** Every character of a string satisfies a test. *)
Fixpoint every_char (p : ascii -> bool) (s : string) : bool :=
  match s with
  | EmptyString => true
  | String c s' => p c && every_char p s'
  end.

(** Neither the first nor the last character is white space (and there is
    one). *)
Definition clean_ends (s : string) : Prop :=
  s <> EmptyString /\ starts_clean s /\ trimEnd s = s.



(** The keywords of the three branches of [parseInstruction]. *)
Definition swap_keywords : list string := ["swap"; "exchange"; "trade"].
Definition liquidity_keywords : list string :=
  ["add liquidity"; "provide liquidity"].
Definition price_keywords : list string := ["price"; "value"; "worth"].

(** Some keyword of a list occurs in an instruction. *)
Definition mentions (s : string) (keywords : list string) : bool :=
  existsb (includes s) keywords.

(** The ids of a list of definitions. *)
Definition ids (l : list ContextDefinition) : list string := map id l.

(** The registry after the definitions of a list have been registered in
    order. *)
Definition register_all (ds : list ContextDefinition)
           (m : JsMap ContextDefinition) : JsMap ContextDefinition :=
  fold_left register_in ds m.

(** The action and the confidence [parseInstruction] decides on, by the
    keywords the lower-cased instruction mentions. *)
Definition decided_action (l : string) : string :=
  if mentions l swap_keywords then "swap"
  else if mentions l liquidity_keywords then "addLiquidity"
  else if mentions l price_keywords then "checkPrice"
  else "unknown".

Definition decided_confidence (l : string) : Q :=
  if mentions l swap_keywords then 0.85
  else if mentions l liquidity_keywords then 0.8
  else if mentions l price_keywords then 0.9
  else 0.3.






(** A value the handlers can put into their messages: neither [ToString]
    nor the division by 100 throws on it. *)
Definition plain (v : JsValue) : bool :=
  match v with
  | VUndefined | VStr _ | VNum _ | VStrs _ => true
  | VOther _ (inl _) None => true
  | _ => false
  end.

(** A confidence written with two decimals, [k / 100]. *)
Definition hundredths (k : Z) : Q := Qmake k 100.

(** The shape of the envelopes the agents build: no transaction id; a
    success carries data and no error, a failure an error and no data. *)
Definition envelope_shape (r : AgentResponse) : Prop :=
  transactionId r = None
  /\ if success r
     then data r <> None /\ error r = None
     else data r = None /\ error r <> None.

(** Reads the envelope off a run of a handler that has been fulfilled. *)
Ltac fulfilled_run Hrun :=
  unfold bind, call, ret, now_iso in Hrun;
  repeat match type of Hrun with
         | context [toStr ?v] => destruct (toStr v); try discriminate Hrun
         | context [div100 ?v] => destruct (div100 v); try discriminate Hrun
         | context [fees ?v ?b] => destruct (fees v b); try discriminate Hrun
         end;
  injection Hrun as <- <-.

(** Runs a handler on plain arguments, given that the conversions of a
    plain value are fulfilled. *)
Ltac plain_run toStr_ok div100_ok fees_ok :=
  unfold bind, call, ret, now_iso;
  repeat match goal with
         | Hv : plain ?v = true |- context [toStr ?v] =>
             let t := fresh "t" in
             destruct (toStr_ok v Hv) as [t ->]
         | Hv : plain ?v = true |- context [div100 ?v] =>
             rewrite (div100_ok v Hv)
         | Hv : plain ?v = true |- context [fees ?v ?b] =>
             rewrite (fees_ok v b Hv)
         end.

(** The error [executeTransaction] throws when no wallet is configured. *)
Definition no_wallet_failure : Thrown :=
  ErrorObject
    "Transaction execution failed: No wallet configured for transaction execution".

(** The definition a list registers last under an id. *)
Fixpoint last_with_id (k : string) (ds : list ContextDefinition)
  : option ContextDefinition :=
  match ds with
  | [] => None
  | d :: ds' =>
      match last_with_id k ds' with
      | Some d' => Some d'
      | None => if String.eqb k (id d) then Some d else None
      end
  end.

Section LoadVocabulary.
Context `{Host}.

(** The definitions of the recognized files of a listing up to the first
    one that cannot be read or parsed. *)
Fixpoint definitions_until_failure (contextDir : string)
         (files : list string) : list ContextDefinition :=
  match files with
  | [] => []
  | f :: fs =>
      if recognized f then
        match definitionOf contextDir f with
        | Fulfilled d => d :: definitions_until_failure contextDir fs
        | Rejected _ => []
        end
      else definitions_until_failure contextDir fs
  end.

(** What a call of [loadContexts] registers. *)
Definition loadedDefinitions (contextDir : string)
  : list ContextDefinition :=
  match readdirSync contextDir with
  | Fulfilled files => definitions_until_failure contextDir files
  | Rejected _ => []
  end.

(** The line [loadContexts] writes last when it succeeds. *)
Definition loaded_line (m : JsMap ContextDefinition) : ConsoleLine :=
  ConsoleLog ("Loaded " ++ string_of_Z (Z.of_nat (Map_size m))
              ++ " context definitions").

(** The response [routeRequest] simulates. *)
Definition simulated_response (contextId : string)
           (context : ContextDefinition) (request : JsRecord)
           (time : nat) : RouteResponse :=
  {| resp_contextId := contextId;
     timestamp := toISOString time;
     status := "success";
     resp_data :=
       {| resp_message := "Processed request to " ++ name context;
          requestSummary := request |} |}.

End LoadVocabulary.

(** A host like [demoHost] whose directory [contexts] holds no broken
    file. *)
Definition tidyHost : Host := {|
  readdirSync := fun dir =>
    if String.eqb dir "contexts"
    then Fulfilled ["README.md"; "jupiter-dex.yaml"]
    else Rejected enoent;
  path_join := fun dir file => (dir ++ "/" ++ file)%string;
  readFileSync := fun p =>
    if String.eqb p "contexts/jupiter-dex.yaml" then Fulfilled "id: jupiter-dex-v4"
    else Rejected enoent;
  JSON_parse := fun _ => Rejected bad_json;
  yaml_parse := fun content =>
    if String.eqb content "id: jupiter-dex-v4" then Fulfilled jupiter
    else Rejected (ErrorObject "YAMLParseError");
  PublicKey_new := PublicKey_new (Host := demoHost);
  toISOString := toISOString (Host := demoHost);
  number_text := number_text (Host := demoHost);
  div100_text := div100_text (Host := demoHost);
  fees_toFixed4 := fees_toFixed4 (Host := demoHost)
|}.

Definition nftAgent : NFTMarketAgent :=
  new_NFTMarketAgent
    {| nft_base := {| ctx_agentId := "7Xk2pQmZ9wYtLr4Vb8Nc3sHd6Jf1GgUuEeAaBbCcDdEe";
                      ctx_contextId := None |};
       ctx_supportedMarketplaces := None;
       ctx_defaultRoyaltyBps := Some 0%Z |}.


(* ================================================================== *)
(** * Properties *)

(** ** Strings: lower-casing and trimming *)

Lemma lower_char_idem (c : ascii) : lower_char (lower_char c) = lower_char c.
Proof. each_code_unit c. Qed.

Lemma is_space_lower_char (c : ascii) : is_space (lower_char c) = is_space c.
Proof. each_code_unit c. Qed.

Lemma toLowerCase_idem (s : string) :
  toLowerCase (toLowerCase s) = toLowerCase s.
Proof.
  unfold toLowerCase.
  induction s as [|c s IH]; simpl; [reflexivity|].
  now rewrite lower_char_idem, IH.
Qed.

Lemma trimStart_toLowerCase (s : string) :
  trimStart (toLowerCase s) = toLowerCase (trimStart s).
Proof.
  unfold toLowerCase.
  induction s as [|c s IH]; simpl; [reflexivity|].
  rewrite is_space_lower_char.
  destruct (is_space c); [exact IH | reflexivity].
Qed.

Lemma trimEnd_toLowerCase (s : string) :
  trimEnd (toLowerCase s) = toLowerCase (trimEnd s).
Proof.
  unfold toLowerCase.
  induction s as [|c s IH]; simpl; [reflexivity|].
  rewrite IH, is_space_lower_char.
  destruct (trimEnd s); simpl; [destruct (is_space c)|]; reflexivity.
Qed.

Lemma trim_toLowerCase (s : string) :
  trim (toLowerCase s) = toLowerCase (trim s).
Proof.
  unfold trim. now rewrite trimStart_toLowerCase, trimEnd_toLowerCase.
Qed.

Lemma trimStart_clean (s : string) : starts_clean (trimStart s).
Proof.
  induction s as [|c s IH]; simpl; [exact I|].
  destruct (is_space c) eqn:E; [exact IH | exact E].
Qed.

Lemma trimStart_of_clean (s : string) : starts_clean s -> trimStart s = s.
Proof.
  destruct s as [|c s]; simpl; [reflexivity|].
  now intros ->.
Qed.

Lemma trimEnd_keeps_clean (s : string) :
  starts_clean s -> starts_clean (trimEnd s).
Proof.
  destruct s as [|c s]; simpl; [trivial|].
  intros Hc. destruct (trimEnd s); [rewrite Hc|]; exact Hc.
Qed.

Lemma trimEnd_idem (s : string) : trimEnd (trimEnd s) = trimEnd s.
Proof.
  induction s as [|c s IH]; simpl; [reflexivity|].
  destruct (trimEnd s) as [|d t] eqn:E.
  - destruct (is_space c) eqn:Ec; simpl; [reflexivity|now rewrite Ec].
  - change (match trimEnd (String d t) with
            | EmptyString =>
                if is_space c then EmptyString else String c EmptyString
            | String e u => String c (String e u)
            end = String c (String d t)).
    now rewrite IH.
Qed.

Lemma trim_idem (s : string) : trim (trim s) = trim s.
Proof.
  unfold trim.
  rewrite trimStart_of_clean by apply trimEnd_keeps_clean, trimStart_clean.
  apply trimEnd_idem.
Qed.

(** The normal form [parseInstruction] computes before it matches. *)
Lemma normal_form_idem (s : string) :
  trim (toLowerCase (trim (toLowerCase s))) = trim (toLowerCase s).
Proof.
  now rewrite <- trim_toLowerCase, toLowerCase_idem, trim_idem.
Qed.

(** ** The instruction parser *)

(** C8. [parseInstruction] is a pure function of its input: two runs on the
    same instruction, in whatever states of the world, are fulfilled with
    the same parsed instruction (action, parameters and confidence), and a
    run leaves the world as it found it. *)
Theorem parseInstruction_pure (instruction : string) (w1 w2 : World) :
  (exists parsed : ParsedInstruction,
      fst (parseInstruction instruction w1) = Fulfilled parsed
      /\ fst (parseInstruction instruction w2) = Fulfilled parsed)
  /\ snd (parseInstruction instruction w1) = w1
  /\ snd (parseInstruction instruction w2) = w2.
Proof.
  unfold parseInstruction.
  set (i := trim (toLowerCase instruction)).
  destruct (includes i "swap" || includes i "exchange" || includes i "trade");
    [|destruct (includes i "add liquidity" || includes i "provide liquidity");
      [|destruct (includes i "price" || includes i "value"
                  || includes i "worth")]];
    (split; [eexists; split; reflexivity | split; reflexivity]).
Qed.

(** C10. [parseInstruction] is invariant under letter case and surrounding
    white space: on the lower-cased and trimmed form of an instruction (and
    on the instruction only lower-cased, or only trimmed) it returns what
    it returns on the instruction itself. *)
Theorem parseInstruction_case_and_space_invariant (s : string) (w : World) :
  parseInstruction (trim (toLowerCase s)) w = parseInstruction s w
  /\ parseInstruction (toLowerCase s) w = parseInstruction s w
  /\ parseInstruction (trim s) w = parseInstruction s w.
Proof.
  unfold parseInstruction. repeat split.
  - now rewrite normal_form_idem.
  - now rewrite toLowerCase_idem.
  - now rewrite <- trim_toLowerCase, trim_idem.
Qed.

(** ** Dispatch of instructions by the agents *)

Section Dispatch.
Context `{Host}.
Variable parse : string -> Js ParsedInstruction.

(** Once the parser is fulfilled, the call settles as what the [switch]
    returns: the promise of a handler, or the envelope of an unsupported
    action. *)
Lemma defi_processInstruction_parsed
      (this : SolanaDeFiAgent) (instruction : string) (w w1 : World)
      (p : ParsedInstruction) :
  parse instruction w = (Fulfilled p, w1) ->
  defi_processInstruction parse this instruction w =
  (if String.eqb (action p) "swap" then
     handleSwap this (prop "sourceToken" (params p))
       (prop "targetToken" (params p)) (prop "amount" (params p))
       (or_else (prop "slippageBps" (params p))
                (VNum (defaultSlippageBps this)))
   else if String.eqb (action p) "addLiquidity" then
     handleAddLiquidity this (prop "poolId" (params p))
       (prop "tokenA" (params p)) (prop "amountA" (params p))
       (prop "tokenB" (params p)) (prop "amountB" (params p))
   else if String.eqb (action p) "checkPrice" then
     handlePriceCheck this (prop "token" (params p))
   else ret (unsupported p)) w1.
Proof.
  intros Hp.
  unfold defi_processInstruction, adopt, try_catch, bind. rewrite Hp.
  destruct (String.eqb (action p) "swap"); [reflexivity|].
  destruct (String.eqb (action p) "addLiquidity"); [reflexivity|].
  destruct (String.eqb (action p) "checkPrice"); reflexivity.
Qed.

Lemma nft_processInstruction_parsed
      (this : NFTMarketAgent) (instruction : string) (w w1 : World)
      (p : ParsedInstruction) :
  parse instruction w = (Fulfilled p, w1) ->
  nft_processInstruction parse this instruction w =
  (if String.eqb (action p) "listNFT" then
     handleListNFT this (prop "nftMint" (params p))
       (prop "price" (params p))
       (or_else (prop "marketplace" (params p)) (firstMarketplace this))
   else if String.eqb (action p) "buyNFT" then
     handleBuyNFT this (prop "nftMint" (params p))
       (prop "maxPrice" (params p))
   else if String.eqb (action p) "checkCollection" then
     handleCollectionCheck this (prop "collectionAddress" (params p))
   else if String.eqb (action p) "mintNFT" then
     handleMintNFT this (prop "metadataUri" (params p))
       (prop "name" (params p)) (prop "symbol" (params p))
   else ret (unsupported p)) w1.
Proof.
  intros Hp.
  unfold nft_processInstruction, adopt, try_catch, bind. rewrite Hp.
  destruct (String.eqb (action p) "listNFT"); [reflexivity|].
  destruct (String.eqb (action p) "buyNFT"); [reflexivity|].
  destruct (String.eqb (action p) "checkCollection"); [reflexivity|].
  destruct (String.eqb (action p) "mintNFT"); reflexivity.
Qed.

(** What the parser throws is caught. *)
Lemma defi_processInstruction_parser_throws
      (this : SolanaDeFiAgent) (instruction : string) (w w1 : World)
      (e : Thrown) :
  parse instruction w = (Rejected e, w1) ->
  defi_processInstruction parse this instruction w
  = (Fulfilled (failed e), w1).
Proof.
  intros Hp.
  unfold defi_processInstruction, adopt, try_catch, bind. now rewrite Hp.
Qed.

Lemma nft_processInstruction_parser_throws
      (this : NFTMarketAgent) (instruction : string) (w w1 : World)
      (e : Thrown) :
  parse instruction w = (Rejected e, w1) ->
  nft_processInstruction parse this instruction w
  = (Fulfilled (failed e), w1).
Proof.
  intros Hp.
  unfold nft_processInstruction, adopt, try_catch, bind. now rewrite Hp.
Qed.

(** C5. An exception during handling is not answered with an envelope of
    code 500.  [processInstruction] of either agent returns the promise
    of its handler from the [try] block without awaiting it, so once the
    parser is fulfilled with the action swap (for the NFT agent: listNFT)
    the call settles exactly as the handler does, past the [catch]
    clause; and when the amount (the NFT mint) the parser resolved to is
    a Symbol, or the slippage a BigInt other than zero while the other
    parameters of the swap are strings, the call is rejected with the
    [TypeError] the handler throws while it builds its message. *)
Theorem processInstruction_handler_exception_escapes
        (defi : SolanaDeFiAgent) (nft : NFTMarketAgent)
        (instruction : string) (w w1 : World) (p : ParsedInstruction) :
  parse instruction w = (Fulfilled p, w1) ->
  (action p = "swap" ->
   processInstruction (Agent := SolanaDeFiAgent_methods parse)
     defi instruction w
   = handleSwap defi (prop "sourceToken" (params p))
       (prop "targetToken" (params p)) (prop "amount" (params p))
       (or_else (prop "slippageBps" (params p))
                (VNum (defaultSlippageBps defi))) w1)
  /\ (action p = "swap" ->
      forall description,
        prop "amount" (params p) = VSymbol description ->
        processInstruction (Agent := SolanaDeFiAgent_methods parse)
          defi instruction w
        = (Rejected symbol_to_string_error, w1))
  /\ (action p = "swap" ->
      forall amount source target z,
        prop "amount" (params p) = VStr amount ->
        prop "sourceToken" (params p) = VStr source ->
        prop "targetToken" (params p) = VStr target ->
        prop "slippageBps" (params p) = VBigInt z -> z <> 0%Z ->
        processInstruction (Agent := SolanaDeFiAgent_methods parse)
          defi instruction w
        = (Rejected bigint_mix_error, w1))
  /\ (action p = "listNFT" ->
      processInstruction (Agent := NFTMarketAgent_methods parse)
        nft instruction w
      = handleListNFT nft (prop "nftMint" (params p))
          (prop "price" (params p))
          (or_else (prop "marketplace" (params p))
                   (firstMarketplace nft)) w1)
  /\ (action p = "listNFT" ->
      forall description,
        prop "nftMint" (params p) = VSymbol description ->
        processInstruction (Agent := NFTMarketAgent_methods parse)
          nft instruction w
        = (Rejected symbol_to_string_error, w1)).
Proof.
  intros Hp. simpl processInstruction.
  repeat split; intros Ha.
  - rewrite (defi_processInstruction_parsed defi Hp), Ha. reflexivity.
  - intros d Hd.
    rewrite (defi_processInstruction_parsed defi Hp), Ha. simpl.
    unfold handleSwap, bind, call. rewrite Hd. reflexivity.
  - intros a s t z Hamount Hs Ht Hz Hnz.
    rewrite (defi_processInstruction_parsed defi Hp), Ha. simpl.
    unfold handleSwap, bind, call, or_else.
    rewrite Hamount, Hs, Ht, Hz. simpl.
    destruct (Z.eqb_spec z 0) as [->|_]; [contradiction|]. reflexivity.
  - rewrite (nft_processInstruction_parsed nft Hp), Ha. reflexivity.
  - intros d Hd.
    rewrite (nft_processInstruction_parsed nft Hp), Ha. simpl.
    unfold handleListNFT, bind, call. rewrite Hd. reflexivity.
Qed.

End Dispatch.

(** ** The ES map *)

Section MapFacts.
Variable V : Type.
Implicit Types (m : JsMap V) (k : string) (v : V).

Lemma Map_get_set_same m k v : Map_get (Map_set m k v) k = Some v.
Proof.
  induction m as [|[k0 v0] m IH]; simpl.
  - now rewrite String.eqb_refl.
  - destruct (String.eqb k k0) eqn:E; simpl; rewrite E; auto.
Qed.

Lemma Map_get_set_other m k k' v :
  k' <> k -> Map_get (Map_set m k v) k' = Map_get m k'.
Proof.
  intros Hne. induction m as [|[k0 v0] m IH]; simpl.
  - apply String.eqb_neq in Hne. now rewrite Hne.
  - destruct (String.eqb k k0) eqn:E; simpl.
    + apply String.eqb_eq in E. subst k0.
      apply String.eqb_neq in Hne. now rewrite Hne.
    + now rewrite IH.
Qed.

Lemma Map_get_None m k : Map_get m k = None <-> ~ In k (Map_keys m).
Proof.
  induction m as [|[k0 v0] m IH]; simpl.
  - tauto.
  - destruct (String.eqb k k0) eqn:E.
    + apply String.eqb_eq in E. subst. split; [discriminate | tauto].
    + apply String.eqb_neq in E. rewrite IH. split.
      * intros Hn [Heq | Hin]; [now apply E | now apply Hn].
      * tauto.
Qed.

Lemma Map_has_set m k v : Map_has (Map_set m k v) k = true.
Proof. unfold Map_has. now rewrite Map_get_set_same. Qed.

Lemma Map_has_set_mono m k k' v :
  Map_has m k' = true -> Map_has (Map_set m k v) k' = true.
Proof.
  unfold Map_has. destruct (String.eqb_spec k' k) as [->|Hne].
  - now rewrite Map_get_set_same.
  - now rewrite Map_get_set_other.
Qed.

(** Setting a present key changes no key; setting an absent one appends it. *)
Lemma Map_keys_set m k v :
  Map_keys (Map_set m k v)
  = if Map_has m k then Map_keys m else Map_keys m ++ [k].
Proof.
  unfold Map_has. induction m as [|[k0 v0] m IH]; simpl; [reflexivity|].
  destruct (String.eqb k k0) eqn:E; simpl; [reflexivity|].
  rewrite IH. now destruct (Map_get m k).
Qed.

Lemma Map_set_NoDup m k v :
  NoDup (Map_keys m) -> NoDup (Map_keys (Map_set m k v)).
Proof.
  intros Hnd. rewrite Map_keys_set.
  destruct (Map_has m k) eqn:E; [exact Hnd|].
  assert (Hnot : ~ In k (Map_keys m)).
  { apply Map_get_None. unfold Map_has in E.
    now destruct (Map_get m k). }
  clear E. induction (Map_keys m) as [|x l IH]; simpl.
  - constructor; [intros []|constructor].
  - inversion Hnd as [|? ? Hx Hl]; subst. constructor.
    + rewrite in_app_iff. intros [Hin | [Heq | []]]; [now apply Hx|].
      subst. apply Hnot. now left.
    + apply IH; [exact Hl|]. intros Hin. apply Hnot. now right.
Qed.

Lemma Map_set_Forall (P : string * V -> Prop) m k v :
  Forall P m -> P (k, v) -> Forall P (Map_set m k v).
Proof.
  intros Hall Hv. induction m as [|[k0 v0] m IH]; simpl.
  - constructor; [apply Hv | constructor].
  - inversion Hall; subst.
    destruct (String.eqb_spec k k0) as [<-|Hne]; constructor; auto.
Qed.

End MapFacts.

(** ** Case-insensitive comparison *)

Lemma code_unit_inj (a b : ascii) : code_unit a = code_unit b -> a = b.
Proof.
  unfold code_unit. intros E.
  rewrite <- (ascii_N_embedding a), <- (ascii_N_embedding b). now rewrite E.
Qed.

Lemma code_unit_upper (a : ascii) :
  is_upper a = true -> (code_unit a + 32 < 256)%N.
Proof. each_code_unit a; discriminate. Qed.

Lemma lowered_not_upper (a : ascii) :
  is_upper a = true -> is_upper (ascii_of_N (code_unit a + 32)) = false.
Proof. each_code_unit a; discriminate. Qed.

Lemma lower_char_same_letter (a b : ascii) :
  lower_char a = lower_char b <-> same_letter a b.
Proof.
  unfold lower_char, same_letter. split.
  - destruct (is_upper a) eqn:Ea, (is_upper b) eqn:Eb; intros E.
    + left. apply code_unit_inj.
      apply (f_equal code_unit) in E. unfold code_unit in E.
      rewrite !N_ascii_embedding in E
        by (apply code_unit_upper; assumption).
      unfold code_unit. lia.
    + right; left. split; [reflexivity|]. subst b. unfold code_unit at 1.
      now rewrite N_ascii_embedding by (apply code_unit_upper; assumption).
    + right; right. split; [reflexivity|]. subst a. unfold code_unit at 1.
      now rewrite N_ascii_embedding by (apply code_unit_upper; assumption).
    + now left.
  - intros [-> | [[Ha Hb] | [Hb Ha]]]; [reflexivity | |].
    + assert (Eb : b = ascii_of_N (code_unit a + 32)).
      { apply code_unit_inj. rewrite Hb. unfold code_unit at 2.
        now rewrite N_ascii_embedding by (apply code_unit_upper; assumption). }
      rewrite Ha, Eb. now rewrite lowered_not_upper by exact Ha.
    + assert (Ea : a = ascii_of_N (code_unit b + 32)).
      { apply code_unit_inj. rewrite Ha. unfold code_unit at 2.
        now rewrite N_ascii_embedding by (apply code_unit_upper; assumption). }
      rewrite Hb, Ea. now rewrite lowered_not_upper by exact Hb.
Qed.

(** The comparison of the source, [a.toLowerCase() === b.toLowerCase()],
    decides case-insensitive equality. *)
Lemma toLowerCase_eqb_spec (a b : string) :
  String.eqb (toLowerCase a) (toLowerCase b) = true
  <-> equal_ignoring_case a b.
Proof.
  rewrite String.eqb_eq. unfold toLowerCase. split.
  - revert b. induction a as [|x a IH]; intros [|y b] E; simpl in E;
      try discriminate.
    + constructor.
    + injection E as Ec Es. constructor.
      * now apply lower_char_same_letter.
      * now apply IH.
  - induction 1 as [|x y s t Hl _ IH]; simpl; [reflexivity|].
    apply lower_char_same_letter in Hl. now rewrite Hl, IH.
Qed.

Lemma hasAllCapabilities_covers (d : ContextDefinition)
      (required : list string) :
  hasAllCapabilities d required = true <-> covers d required.
Proof.
  unfold hasAllCapabilities, covers. rewrite forallb_forall.
  split; intros Hall cap Hin.
  - specialize (Hall cap Hin). apply existsb_exists in Hall.
    destruct Hall as [c [Hc E]]. exists c. split; [exact Hc|].
    now apply toLowerCase_eqb_spec.
  - destruct (Hall cap Hin) as [c [Hc E]]. apply existsb_exists.
    exists c. split; [exact Hc|]. now apply toLowerCase_eqb_spec.
Qed.

(** ** Queries of the registry *)

Section RouterFacts.
Context `{Host}.

(** The loop that pushes the matching elements computes a filter. *)
Lemma push_loop_filter {A} (p : A -> bool) (l acc : list A) :
  fold_left (fun matches x => if p x then matches ++ [x] else matches) l acc
  = acc ++ filter p l.
Proof.
  revert acc. induction l as [|x l IH]; intros acc; simpl.
  - now rewrite app_nil_r.
  - rewrite IH. destruct (p x); [|reflexivity].
    now rewrite <- app_assoc.
Qed.

Lemma findContextsByCapabilities_run (required : list string)
      (st : RouterState) :
  findContextsByCapabilities required st
  = (Fulfilled (filter (fun d => hasAllCapabilities d required)
                       (Map_values (contexts st))), st).
Proof.
  unfold findContextsByCapabilities, bind, get_contexts, ret.
  now rewrite push_loop_filter.
Qed.

(** C2. In every state of the registry and for every list of required
    capabilities, [findContextsByCapabilities] is fulfilled with exactly the
    registered definitions that cover the list (each required capability
    equals, up to case, some capability of the definition), in registry
    order; it never fails, and returns the empty list when no definition
    covers the list. *)
Theorem findContextsByCapabilities_exact (required : list string)
        (st : RouterState) :
  exists matches : list ContextDefinition,
    findContextsByCapabilities required st = (Fulfilled matches, st)
    /\ (exists keep : ContextDefinition -> bool,
           (forall d, keep d = true <-> covers d required)
           /\ matches = filter keep (Map_values (contexts st)))
    /\ (forall d, In d matches
                  <-> In d (Map_values (contexts st)) /\ covers d required)
    /\ ((forall d, In d (Map_values (contexts st)) -> ~ covers d required)
        -> matches = []).
Proof.
  eexists. split; [apply findContextsByCapabilities_run|].
  split; [|split].
  - exists (fun d => hasAllCapabilities d required). split; [|reflexivity].
    intros d. apply hasAllCapabilities_covers.
  - intros d. rewrite filter_In, hasAllCapabilities_covers. reflexivity.
  - intros Hnone.
    induction (Map_values (contexts st)) as [|d l IH]; simpl; [reflexivity|].
    destruct (hasAllCapabilities d required) eqn:E.
    + exfalso. apply (Hnone d); [now left|].
      now apply hasAllCapabilities_covers.
    + apply IH. intros d' Hin. apply Hnone. now right.
Qed.

(** C6. In every state of the registry, [findContextsByCapabilities] applied
    to the empty list returns every registered definition. *)
Theorem findContextsByCapabilities_nil (st : RouterState) :
  findContextsByCapabilities [] st
  = (Fulfilled (Map_values (contexts st)), st).
Proof.
  rewrite findContextsByCapabilities_run. f_equal. f_equal.
  induction (Map_values (contexts st)) as [|d l IH]; simpl; [reflexivity|].
  f_equal. exact IH.
Qed.

(** ** Registration *)

Lemma registerContext_run (d : ContextDefinition) (st : RouterState) :
  registerContext d st
  = (Fulfilled tt,
     {| contexts := register_in (contexts st) d;
        world :=
          if Map_has (contexts st) (id d)
          then {| console :=
                    console (world st)
                    ++ [ConsoleWarn ("Context with ID " ++ id d
                                     ++ " already registered, overwriting")];
                  clockReads := clockReads (world st) |}
          else world st |}).
Proof.
  unfold registerContext, bind, get_contexts, put_contexts, outside,
    write_console, ret, register_in.
  simpl. destruct (Map_has (contexts st) (id d)); reflexivity.
Qed.

Lemma registerContext_contexts (d : ContextDefinition) (st : RouterState) :
  contexts (snd (registerContext d st)) = register_in (contexts st) d.
Proof. now rewrite registerContext_run. Qed.

Lemma register_in_well_keyed (m : JsMap ContextDefinition)
      (d : ContextDefinition) :
  well_keyed m -> well_keyed (register_in m d).
Proof.
  intros [Hnd Hkeys]. split.
  - now apply Map_set_NoDup.
  - unfold register_in. apply Map_set_Forall; [exact Hkeys | reflexivity].
Qed.

(** In a well-keyed registry the definitions with a given id are what is
    stored under that key. *)
Lemma definitions_with_id_get (m : JsMap ContextDefinition) (k : string) :
  well_keyed m ->
  definitions_with_id k m
  = match Map_get m k with Some d => [d] | None => [] end.
Proof.
  unfold definitions_with_id, Map_values.
  intros [Hnd Hkeys]. induction m as [|[k0 d0] m IH]; simpl; [reflexivity|].
  inversion Hkeys as [|? ? Hk Hm]; subst. simpl in Hk. subst k0.
  inversion Hnd as [|? ? Hnotin Hnd']; subst.
  rewrite (String.eqb_sym k (id d0)).
  destruct (String.eqb (id d0) k) eqn:E.
  - apply String.eqb_eq in E. subst k.
    rewrite IH by assumption.
    apply Map_get_None in Hnotin. now rewrite Hnotin.
  - now apply IH.
Qed.

(** ** Calls that keep a property of the registry *)

Section Keeps.
Variable P : JsMap ContextDefinition -> Prop.

Lemma keeps_ret {A} (a : A) : keeps P (ret a).
Proof. intros st HP. exact HP. Qed.

Lemma keeps_throw {A} (e : Thrown) : keeps P (throw (A := A) e).
Proof. intros st HP. exact HP. Qed.

Lemma keeps_call {A} (o : Outcome A) : keeps P (call o).
Proof. intros st HP. exact HP. Qed.

Lemma keeps_outside {A} (m : Js A) : keeps P (outside m).
Proof.
  intros st HP. unfold outside. now destruct (m (world st)).
Qed.

Lemma keeps_get_contexts : keeps P get_contexts.
Proof. intros st HP. exact HP. Qed.

Lemma keeps_bind {A B} (m : RouterJs A) (f : A -> RouterJs B) :
  keeps P m -> (forall a, keeps P (f a)) -> keeps P (bind m f).
Proof.
  intros Hm Hf st HP. unfold bind. specialize (Hm st HP).
  destruct (m st) as [[a|e] st']; simpl in *; [now apply Hf | exact Hm].
Qed.

Lemma keeps_try_catch {A} (body : RouterJs A) (handler : Thrown -> RouterJs A) :
  keeps P body -> (forall e, keeps P (handler e)) ->
  keeps P (try_catch body handler).
Proof.
  intros Hb Hh st HP. unfold try_catch. specialize (Hb st HP).
  destruct (body st) as [[a|e] st']; simpl in *; [exact Hb | now apply Hh].
Qed.

Lemma keeps_for_of {A} (xs : list A) (body : A -> RouterJs unit) :
  (forall x, keeps P (body x)) -> keeps P (for_of xs body).
Proof.
  intros Hb. induction xs as [|x xs IH]; simpl.
  - apply keeps_ret.
  - apply keeps_bind; [apply Hb | intros _; exact IH].
Qed.

Hypothesis register_keeps : forall m d, P m -> P (register_in m d).

Lemma keeps_registerContext (d : ContextDefinition) :
  keeps P (registerContext d).
Proof.
  intros st HP. rewrite registerContext_contexts. now apply register_keeps.
Qed.

Lemma keeps_loadFile (contextDir file : string) :
  keeps P (loadFile contextDir file).
Proof.
  unfold loadFile. destruct (recognized file); [|apply keeps_ret].
  apply keeps_bind; [apply keeps_call|]. intros content.
  apply keeps_bind; [destruct (endsWith file ".json"); apply keeps_call|].
  intros d. apply keeps_registerContext.
Qed.

Lemma keeps_loadContexts (contextDir : string) :
  keeps P (loadContexts contextDir).
Proof.
  unfold loadContexts. apply keeps_try_catch.
  - apply keeps_bind; [apply keeps_call|]. intros files.
    apply keeps_bind; [apply keeps_for_of; intros f; apply keeps_loadFile|].
    intros _. apply keeps_bind; [apply keeps_get_contexts|].
    intros m. apply keeps_outside.
  - intros e. apply keeps_bind; [apply keeps_outside|].
    intros _. apply keeps_throw.
Qed.

End Keeps.

Lemma reachable_well_keyed (st : RouterState) :
  reachable st -> well_keyed (contexts st).
Proof.
  induction 1 as [w | st d _ IH | st dir _ IH | st w _ IH]; simpl.
  - split; constructor.
  - rewrite registerContext_contexts. now apply register_in_well_keyed.
  - revert IH. apply keeps_loadContexts. apply register_in_well_keyed.
  - exact IH.
Qed.

Lemma findContextsByType_run (type : ContextType) (st : RouterState) :
  findContextsByType type st
  = (Fulfilled (filter (fun d => ContextType_eqb (type_ d) type)
                       (Map_values (contexts st))), st).
Proof. reflexivity. Qed.

Lemma ContextType_eqb_refl (t : ContextType) : ContextType_eqb t t = true.
Proof. now destruct t. Qed.

Lemma filter_swap {A} (p q : A -> bool) (l : list A) :
  filter p (filter q l) = filter q (filter p l).
Proof.
  induction l as [|x l IH]; simpl; [reflexivity|].
  destruct (p x) eqn:Ep, (q x) eqn:Eq; simpl;
    rewrite ?Ep, ?Eq, IH; reflexivity.
Qed.

(** C3. The registry holds at most one definition per id in every state a
    router reaches; [registerContext] stores the definition under its id;
    and after two registrations under one id exactly one definition carries
    that id, the second, which is also the one [findContextsByType] shows. *)
Theorem registry_one_definition_per_id (st : RouterState) :
  reachable st ->
  (forall k, (List.length (definitions_with_id k (contexts st)) <= 1)%nat)
  /\ (forall d,
         Map_get (contexts (snd (registerContext d st))) (id d) = Some d)
  /\ (forall d1 d2,
         id d1 = id d2 ->
         let st2 := snd (registerContext d2 (snd (registerContext d1 st))) in
         definitions_with_id (id d2) (contexts st2) = [d2]
         /\ exists found,
             findContextsByType (type_ d2) st2 = (Fulfilled found, st2)
             /\ filter (fun d => String.eqb (id d) (id d2)) found = [d2]).
Proof.
  intros Hreach. split; [|split].
  - intros k.
    rewrite definitions_with_id_get by now apply reachable_well_keyed.
    destruct (Map_get (contexts st) k); simpl; lia.
  - intros d. rewrite registerContext_contexts. apply Map_get_set_same.
  - intros d1 d2 Hid st2.
    assert (Hwk : well_keyed (contexts st2)).
    { apply reachable_well_keyed. subst st2. now do 2 apply reach_register. }
    assert (Hget : Map_get (contexts st2) (id d2) = Some d2).
    { subst st2. rewrite registerContext_contexts. apply Map_get_set_same. }
    assert (Hdefs : definitions_with_id (id d2) (contexts st2) = [d2]).
    { rewrite definitions_with_id_get by exact Hwk. now rewrite Hget. }
    split; [exact Hdefs|].
    eexists. split; [apply findContextsByType_run|].
    rewrite filter_swap. fold (definitions_with_id (id d2) (contexts st2)).
    rewrite Hdefs. simpl. now rewrite ContextType_eqb_refl.
Qed.

(** ** Permission and routing *)

Section WithAgent.
Context {A : Type} {AgentA : Agent A}.
Implicit Types (agent : A) (contextId : string) (request : JsRecord).

Lemma Map_has_get {V} (m : JsMap V) (k : string) :
  Map_has m k = false <-> Map_get m k = None.
Proof. unfold Map_has. destruct (Map_get m k); split; congruence. Qed.

Lemma checkPermission_unregistered agent contextId (st : RouterState) :
  Map_has (contexts st) contextId = false ->
  checkPermission agent contextId st = (Fulfilled false, st).
Proof.
  intros Hno. apply Map_has_get in Hno.
  unfold checkPermission, bind, get_contexts. simpl. now rewrite Hno.
Qed.

(** What [checkPermission] does for a registered context. *)
Lemma checkPermission_registered agent contextId (st : RouterState) :
  Map_has (contexts st) contextId = true ->
  checkPermission agent contextId st
  = match getState agent (world st) with
    | (Fulfilled agentState, w') =>
        match PublicKey_new (prop "agentId" agentState) with
        | Fulfilled _ => (Fulfilled true, {| contexts := contexts st; world := w' |})
        | Rejected e => (Rejected e, {| contexts := contexts st; world := w' |})
        end
    | (Rejected e, w') =>
        (Rejected e, {| contexts := contexts st; world := w' |})
    end.
Proof.
  unfold Map_has, checkPermission, bind, get_contexts, outside, call, ret.
  simpl. destruct (Map_get (contexts st) contextId); [intros _|discriminate].
  destruct (getState agent (world st)) as [[agentState|e] w']; simpl;
    [|reflexivity].
  destruct (PublicKey_new (prop "agentId" agentState)); reflexivity.
Qed.

(** [checkPermission] leaves the registry as it is. *)
Lemma checkPermission_contexts agent contextId (st : RouterState) :
  contexts (snd (checkPermission agent contextId st)) = contexts st.
Proof.
  destruct (Map_has (contexts st) contextId) eqn:E.
  - rewrite checkPermission_registered by exact E.
    destruct (getState agent (world st)) as [[agentState|e] w'];
      [destruct (PublicKey_new (prop "agentId" agentState))|]; reflexivity.
  - now rewrite checkPermission_unregistered.
Qed.

Lemma checkPermission_true agent contextId (st st' : RouterState) :
  checkPermission agent contextId st = (Fulfilled true, st') ->
  Map_has (contexts st) contextId = true /\ contexts st' = contexts st.
Proof.
  intros Hrun. split.
  - destruct (Map_has (contexts st) contextId) eqn:E; [reflexivity|].
    rewrite checkPermission_unregistered in Hrun by exact E. discriminate.
  - rewrite <- (checkPermission_contexts agent contextId st).
    now rewrite Hrun.
Qed.

Lemma routeRequest_unregistered agent contextId request (st : RouterState) :
  Map_has (contexts st) contextId = false ->
  routeRequest agent contextId request st
  = (Rejected (permissionDenied (getName agent) contextId), st).
Proof.
  intros Hno. unfold routeRequest, bind.
  now rewrite checkPermission_unregistered.
Qed.

Lemma permissionDenied_not_contextNotFound (agentName contextId : string) :
  permissionDenied agentName contextId <> contextNotFound contextId.
Proof. unfold permissionDenied, contextNotFound. simpl. discriminate. Qed.

(** C1, as the code has it: for every agent and every context id that is not
    registered, [routeRequest] is rejected with the permission-denied error
    (which is not the context-not-found error), and changes nothing. *)
Theorem routeRequest_unregistered_is_denied
        agent contextId request (st : RouterState) :
  Map_has (contexts st) contextId = false ->
  routeRequest agent contextId request st
  = (Rejected (permissionDenied (getName agent) contextId), st)
  /\ permissionDenied (getName agent) contextId <> contextNotFound contextId.
Proof.
  intros Hno. split.
  - now apply routeRequest_unregistered.
  - apply permissionDenied_not_contextNotFound.
Qed.

(** C4, as the code has it: [checkPermission] returns false, touching
    nothing, when the context id is not registered; when it is registered
    it reads the state of the agent and constructs a [PublicKey] from its
    [agentId], returns true if both succeed, and is rejected with the error
    of the one that throws otherwise. *)
Theorem checkPermission_result agent contextId (st : RouterState) :
  (Map_has (contexts st) contextId = false ->
   checkPermission agent contextId st = (Fulfilled false, st))
  /\ (Map_has (contexts st) contextId = true ->
      forall agentState w',
        getState agent (world st) = (Fulfilled agentState, w') ->
        (forall key,
            PublicKey_new (prop "agentId" agentState) = Fulfilled key ->
            checkPermission agent contextId st
            = (Fulfilled true, {| contexts := contexts st; world := w' |}))
        /\ (forall e,
               PublicKey_new (prop "agentId" agentState) = Rejected e ->
               checkPermission agent contextId st
               = (Rejected e, {| contexts := contexts st; world := w' |})))
  /\ (Map_has (contexts st) contextId = true ->
      forall e w',
        getState agent (world st) = (Rejected e, w') ->
        checkPermission agent contextId st
        = (Rejected e, {| contexts := contexts st; world := w' |})).
Proof.
  split; [apply checkPermission_unregistered|].
  split; intros Hreg.
  - intros agentState w' Hstate.
    rewrite checkPermission_registered, Hstate by exact Hreg.
    split; [intros key Hkey | intros e Hkey]; now rewrite Hkey.
  - intros e w' Hstate.
    now rewrite checkPermission_registered, Hstate by exact Hreg.
Qed.

(** C9. Whenever [checkPermission] returns true the context id is
    registered, before the call and after it; so [routeRequest] never
    executes its context-not-found branch (whatever stands in that branch,
    the call runs the same), and on an id that is not registered it is
    rejected with the permission-denied error. *)
Theorem routeRequest_not_found_unreachable
        agent contextId request (st : RouterState) :
  (forall st',
      checkPermission agent contextId st = (Fulfilled true, st') ->
      Map_has (contexts st) contextId = true
      /\ Map_has (contexts st') contextId = true)
  /\ (forall dead,
         routeRequest_otherwise dead agent contextId request st
         = routeRequest agent contextId request st)
  /\ (Map_has (contexts st) contextId = false ->
      routeRequest agent contextId request st
      = (Rejected (permissionDenied (getName agent) contextId), st)).
Proof.
  split; [|split].
  - intros st' Hrun. apply checkPermission_true in Hrun.
    destruct Hrun as [Hreg Hsame]. now rewrite Hsame.
  - intros dead. unfold routeRequest_otherwise, routeRequest, bind.
    destruct (checkPermission agent contextId st) as [[[|]|e] st'] eqn:Hrun;
      simpl; try reflexivity.
    apply checkPermission_true in Hrun. destruct Hrun as [Hreg Hsame].
    rewrite Hsame. unfold Map_has in Hreg.
    destruct (Map_get (contexts st) contextId); [reflexivity|discriminate].
  - apply routeRequest_unregistered.
Qed.

End WithAgent.

(** ** Loading a directory *)

Lemma loadFile_run (contextDir file : string) (st : RouterState) :
  loadFile contextDir file st
  = if recognized file then
      match definitionOf contextDir file with
      | Fulfilled d => registerContext d st
      | Rejected e => (Rejected e, st)
      end
    else (Fulfilled tt, st).
Proof.
  unfold loadFile, definitionOf, bind, call, ret.
  destruct (recognized file); [|reflexivity].
  destruct (readFileSync (path_join contextDir file)) as [content|e];
    [|reflexivity].
  destruct (endsWith file ".json");
    [destruct (JSON_parse content) | destruct (yaml_parse content)];
    reflexivity.
Qed.

Lemma for_of_app {S X} (xs ys : list X) (body : X -> Eff S unit) (st : S) :
  for_of (xs ++ ys) body st = (for_of xs body ;;; for_of ys body) st.
Proof.
  revert st. induction xs as [|x xs IH]; intros st; simpl; [reflexivity|].
  unfold bind in *. destruct (body x st) as [[[]|e] st1]; [apply IH|reflexivity].
Qed.

(** Entries that load are registered one after the other. *)
Lemma for_of_loads (contextDir : string) (files : list string)
      (st : RouterState) :
  Forall (loads contextDir) files ->
  exists st',
    for_of files (loadFile contextDir) st = (Fulfilled tt, st')
    /\ contexts st'
       = fold_left register_in (definitionsOf contextDir files) (contexts st).
Proof.
  intros Hall. revert st.
  induction Hall as [|f fs Hf _ IH]; intros st; simpl.
  - now exists st.
  - unfold bind. rewrite loadFile_run.
    destruct (recognized f) eqn:Er.
    + destruct Hf as [Hf | [d Hd]]; [congruence|]. rewrite Hd.
      rewrite registerContext_run.
      match goal with |- context [for_of fs _ ?s] =>
        destruct (IH s) as [st' [Hrun Hctx]] end.
      exists st'. split; [exact Hrun|]. rewrite Hctx. reflexivity.
    + destruct (IH st) as [st' [Hrun Hctx]]. now exists st'.
Qed.

Lemma for_of_stops (contextDir : string) (files : list string)
      (st : RouterState) :
  Exists (fun f => exists e, fails_with contextDir f e) files ->
  exists e st', for_of files (loadFile contextDir) st = (Rejected e, st').
Proof.
  intros Hbad. revert st.
  induction files as [|f fs IH]; intros st; [inversion Hbad|].
  simpl. unfold bind. rewrite loadFile_run.
  destruct (recognized f) eqn:Er.
  - destruct (definitionOf contextDir f) as [d|e] eqn:Ed.
    + rewrite registerContext_run. apply IH.
      inversion Hbad as [? ? [e [_ He]] | ? ? Hfs]; subst;
        [congruence | exact Hfs].
    + now exists e, st.
  - apply IH.
    inversion Hbad as [? ? [e [Hr _]] | ? ? Hfs]; subst;
      [congruence | exact Hfs].
Qed.

Lemma Map_has_fold_register (ds : list ContextDefinition)
      (m : JsMap ContextDefinition) (k : string) :
  Map_has m k = true -> Map_has (fold_left register_in ds m) k = true.
Proof.
  revert m. induction ds as [|d ds IH]; intros m Hm; simpl; [exact Hm|].
  apply IH. now apply Map_has_set_mono.
Qed.

Lemma registered_after_fold (ds : list ContextDefinition)
      (m : JsMap ContextDefinition) (d : ContextDefinition) :
  In d ds -> Map_has (fold_left register_in ds m) (id d) = true.
Proof.
  revert m. induction ds as [|d0 ds IH]; intros m Hin; [inversion Hin|].
  simpl. destruct Hin as [-> | Hin].
  - apply Map_has_fold_register. apply Map_has_set.
  - now apply IH.
Qed.

Lemma definitionsOf_In (contextDir : string) (files : list string)
      (g : string) (d : ContextDefinition) :
  In g files -> recognized g = true ->
  definitionOf contextDir g = Fulfilled d ->
  In d (definitionsOf contextDir files).
Proof.
  intros Hin Hr Hd. induction files as [|f fs IH]; [inversion Hin|].
  simpl. destruct Hin as [-> | Hin].
  - rewrite Hr, Hd. now left.
  - specialize (IH Hin).
    destruct (recognized f); [|exact IH].
    destruct (definitionOf contextDir f); [now right | exact IH].
Qed.

(** The run of [loadContexts] up to the first file that fails. *)
Lemma loadContexts_stops (contextDir : string) (st : RouterState)
      (pre : list string) (f : string) (post : list string) (e : Thrown) :
  readdirSync contextDir = Fulfilled (pre ++ f :: post) ->
  Forall (loads contextDir) pre ->
  fails_with contextDir f e ->
  exists w',
    loadContexts contextDir st
    = (Rejected e,
       {| contexts :=
            fold_left register_in (definitionsOf contextDir pre) (contexts st);
          world := w' |}).
Proof.
  intros Hdir Hpre [Hr Hf].
  destruct (for_of_loads st Hpre) as [st' [Hrun Hctx]].
  unfold loadContexts, try_catch, bind at 1 2, call. rewrite Hdir.
  rewrite for_of_app. unfold bind at 1. rewrite Hrun. simpl.
  unfold bind at 1. rewrite loadFile_run, Hr, Hf. simpl.
  rewrite <- Hctx. eexists. reflexivity.
Qed.

(** C7. [loadContexts] is rejected with the error of [readdirSync] when the
    directory cannot be listed, and with the error of the first recognized
    file that cannot be read or parsed; in the second case the registry
    holds what the files in front of the failing one have registered, each
    of their definitions included (nothing is rolled back); and a
    recognized file that fails anywhere in the listing makes the call
    fail. *)
Theorem loadContexts_fails_without_rollback
        (contextDir : string) (st : RouterState) :
  (forall e,
      readdirSync contextDir = Rejected e ->
      fst (loadContexts contextDir st) = Rejected e
      /\ contexts (snd (loadContexts contextDir st)) = contexts st)
  /\ (forall pre f post e,
         readdirSync contextDir = Fulfilled (pre ++ f :: post) ->
         Forall (loads contextDir) pre ->
         fails_with contextDir f e ->
         fst (loadContexts contextDir st) = Rejected e
         /\ contexts (snd (loadContexts contextDir st))
            = fold_left register_in (definitionsOf contextDir pre)
                        (contexts st)
         /\ forall g d,
             In g pre -> recognized g = true ->
             definitionOf contextDir g = Fulfilled d ->
             Map_has (contexts (snd (loadContexts contextDir st))) (id d)
             = true)
  /\ (forall files,
         readdirSync contextDir = Fulfilled files ->
         Exists (fun f => exists e, fails_with contextDir f e) files ->
         exists e, fst (loadContexts contextDir st) = Rejected e).
Proof.
  split; [|split].
  - intros e Hdir.
    unfold loadContexts, try_catch, bind, call. rewrite Hdir. simpl.
    now split.
  - intros pre f post e Hdir Hpre Hf.
    destruct (loadContexts_stops st post Hdir Hpre Hf) as [w' Hrun].
    rewrite Hrun. simpl. split; [reflexivity|]. split; [reflexivity|].
    intros g d Hin Hg Hd. apply registered_after_fold.
    now apply definitionsOf_In with (g := g).
  - intros files Hdir Hbad.
    destruct (for_of_stops st Hbad) as [e [st' Hrun]]. exists e.
    unfold loadContexts, try_catch, bind at 1 2, call. rewrite Hdir, Hrun.
    reflexivity.
Qed.

End RouterFacts.

(* ================================================================== *)
(** * The properties at work *)

Section Examples.
Existing Instance demoHost.

(** An unregistered id is answered with the permission-denied error. *)
Lemma routeRequest_unregistered_is_denied_example :
  Map_has (contexts newRouter) "jupiter-dex-v4" = false
  /\ routeRequest defiAgent "jupiter-dex-v4" [] newRouter
     = (Rejected (permissionDenied "Solana DeFi Agent" "jupiter-dex-v4"),
        newRouter)
  /\ permissionDenied "Solana DeFi Agent" "jupiter-dex-v4"
     <> contextNotFound "jupiter-dex-v4".
Proof.
  split; [reflexivity|].
  exact (routeRequest_unregistered_is_denied
           defiAgent "jupiter-dex-v4" [] newRouter eq_refl).
Defined.

(** On a new router the request for an unregistered id is not answered
    with the context-not-found error. *)
Lemma routeRequest_unregistered_not_found_refuted :
  ~ (Map_has (contexts newRouter) "jupiter-dex-v4" = false ->
     fst (routeRequest defiAgent "jupiter-dex-v4" [] newRouter)
     = Rejected (contextNotFound "jupiter-dex-v4")).
Proof.
  intros Hclaim. specialize (Hclaim eq_refl).
  vm_compute in Hclaim. discriminate Hclaim.
Qed.

(** Two registrations under the id of Jupiter on a new router. *)
Lemma registry_one_definition_per_id_example :
  reachable newRouter
  /\ definitions_with_id "jupiter-dex-v4"
       (contexts (snd (registerContext jupiter_v6
                         (snd (registerContext jupiter newRouter)))))
     = [jupiter_v6].
Proof.
  split; [apply reach_new|].
  exact (proj1 (proj2 (proj2 (registry_one_definition_per_id
                                (reach_new quietWorld)))
                  jupiter jupiter_v6 eq_refl)).
Defined.

(** The DeFi agent is granted access to a registered context. *)
Lemma checkPermission_result_example :
  Map_has (contexts jupiterRouter) "jupiter-dex-v4" = true
  /\ checkPermission defiAgent "jupiter-dex-v4" jupiterRouter
     = (Fulfilled true, jupiterRouter).
Proof.
  split; [reflexivity|].
  refine (proj1
            (proj1 (proj2 (checkPermission_result
                             defiAgent "jupiter-dex-v4" jupiterRouter))
               eq_refl _ _ eq_refl) _ eq_refl).
Defined.

(** An agent whose state cannot be read is not granted access to a
    registered context: the call is rejected instead of returning true. *)
Lemma checkPermission_registered_true_refuted :
  ~ (Map_has (contexts jupiterRouter) "jupiter-dex-v4" = true ->
     fst (checkPermission offlineAgent "jupiter-dex-v4" jupiterRouter)
     = Fulfilled true).
Proof.
  intros Hclaim. specialize (Hclaim eq_refl).
  vm_compute in Hclaim. discriminate Hclaim.
Qed.

(** The truncated JSON file stops the load after Jupiter is registered. *)
Lemma loadContexts_fails_without_rollback_example :
  readdirSync "contexts"
  = Fulfilled (["README.md"; "jupiter-dex.yaml"] ++ "broken.json" :: [])
  /\ Forall (loads "contexts") ["README.md"; "jupiter-dex.yaml"]
  /\ fails_with "contexts" "broken.json" bad_json
  /\ fst (loadContexts "contexts" newRouter) = Rejected bad_json
  /\ Map_has (contexts (snd (loadContexts "contexts" newRouter)))
       (id jupiter) = true.
Proof.
  assert (Hpre : Forall (loads "contexts") ["README.md"; "jupiter-dex.yaml"]).
  { constructor; [left; reflexivity|].
    constructor; [right; exists jupiter; reflexivity | constructor]. }
  assert (Hbad : fails_with "contexts" "broken.json" bad_json).
  { unfold fails_with. split; reflexivity. }
  assert (Hdir : readdirSync "contexts"
                 = Fulfilled (["README.md"; "jupiter-dex.yaml"]
                                ++ "broken.json" :: [])).
  { reflexivity. }
  split; [exact Hdir|]. split; [exact Hpre|]. split; [exact Hbad|].
  destruct (proj1 (proj2 (loadContexts_fails_without_rollback
                            "contexts" newRouter))
              ["README.md"; "jupiter-dex.yaml"] "broken.json" [] bad_json
              Hdir Hpre Hbad) as [Hrej [_ Hkept]].
  split; [exact Hrej|].
  apply (Hkept "jupiter-dex.yaml" jupiter); [right; left| |]; reflexivity.
Defined.

(** A granted permission on the router that holds Jupiter. *)
Lemma routeRequest_not_found_unreachable_example :
  checkPermission defiAgent "jupiter-dex-v4" jupiterRouter
  = (Fulfilled true, jupiterRouter)
  /\ Map_has (contexts jupiterRouter) "jupiter-dex-v4" = true.
Proof.
  assert (Hrun : checkPermission defiAgent "jupiter-dex-v4" jupiterRouter
                 = (Fulfilled true, jupiterRouter)).
  { reflexivity. }
  split; [exact Hrun|].
  apply (proj1 (routeRequest_not_found_unreachable
                  defiAgent "jupiter-dex-v4" [] jupiterRouter)
           jupiterRouter Hrun).
Defined.

(** The scenarios of the specification. *)

Lemma processInstruction_handler_exception_escapes_example :
  symbolParser "swap 5 SOL to USDC" quietWorld
  = (Fulfilled symbolSwap, quietWorld)
  /\ processInstruction (Agent := SolanaDeFiAgent_methods symbolParser)
       defiAgent "swap 5 SOL to USDC" quietWorld
     = (Rejected symbol_to_string_error, quietWorld).
Proof.
  assert (Hp : symbolParser "swap 5 SOL to USDC" quietWorld
               = (Fulfilled symbolSwap, quietWorld)) by reflexivity.
  split; [exact Hp|].
  destruct (processInstruction_handler_exception_escapes
              symbolParser defiAgent nftAgent
              "swap 5 SOL to USDC" quietWorld Hp) as (_ & Hsymbol & _).
  exact (Hsymbol eq_refl "amount" eq_refl).
Defined.

Example capabilities_ignore_case :
  fst (findContextsByCapabilities ["token_swaps"]
         (snd (registerContext jupiter_v6 newRouter)))
  = Fulfilled [jupiter_v6].
Proof. reflexivity. Qed.

Example capabilities_all_required :
  fst (findContextsByCapabilities ["token_swaps"] jupiterRouter)
  = Fulfilled [jupiter]
  /\ fst (findContextsByCapabilities ["token_swaps"; "governance_voting"]
            jupiterRouter)
     = Fulfilled [].
Proof. split; reflexivity. Qed.

Example overwrite_shows_second :
  fst (findContextsByType DEX
         (snd (registerContext jupiter_v6 jupiterRouter)))
  = Fulfilled [jupiter_v6].
Proof. reflexivity. Qed.

Example unknown_instruction_is_unsupported :
  option_map code
    match fst (processInstruction defiAgent
                 "do something completely different" quietWorld) with
    | Fulfilled r => error r
    | Rejected _ => None
    end
  = Some 400%Z.
Proof. reflexivity. Qed.

Example swap_instruction_parsed :
  fst (parseInstruction "  Swap 1.5 SOL from usdc to BONK " quietWorld)
  = Fulfilled {| action := "swap";
                 params := [("sourceToken", VStr "usdc");
                            ("targetToken", VStr "bonk");
                            ("amount", VStr "1.5");
                            ("slippageBps", VNum 50)];
                 context := None;
                 confidence := 0.85 |}.
Proof. reflexivity. Qed.

End Examples.

(* ================================================================== *)
(** * Further properties *)

(** ** Strings: concatenation, occurrence and suffixes *)

Local Open Scope string_scope.

Lemma sapp_nil_r (s : string) : s ++ "" = s.
Proof. induction s as [|c s IH]; simpl; [reflexivity | now rewrite IH]. Qed.

Lemma sapp_assoc (a b c : string) : (a ++ b) ++ c = a ++ (b ++ c).
Proof. induction a as [|x a IH]; simpl; [reflexivity | now rewrite IH]. Qed.


Lemma prefix_app (sub s : string) :
  String.prefix sub s = true <-> exists b, s = sub ++ b.
Proof.
  revert s. induction sub as [|x sub IH]; intros [|y s]; simpl.
  - split; [intros _; now exists "" | reflexivity].
  - split; [intros _; now exists (String y s) | reflexivity].
  - split; [discriminate | intros [b Hb]; discriminate].
  - destruct (Ascii.ascii_dec x y) as [->|Hne].
    + rewrite IH. split; intros [b Hb]; exists b;
        [now rewrite Hb | now injection Hb].
    + split; [discriminate|]. intros [b Hb]. injection Hb as Hxy _.
      now elim Hne.
Qed.

Lemma includes_unfold (s sub : string) :
  includes s sub
  = (String.prefix sub s
     || match s with
        | EmptyString => false
        | String _ s' => includes s' sub
        end).
Proof. destruct s; reflexivity. Qed.

(** [includes] finds exactly the occurrences of the sought string. *)
Lemma includes_app (s sub : string) :
  includes s sub = true <-> exists a b, s = a ++ sub ++ b.
Proof.
  split.
  - induction s as [|c s IH]; rewrite includes_unfold, orb_true_iff.
    + intros [Hp | Hf]; [|discriminate]. apply prefix_app in Hp.
      destruct Hp as [b Hb]. now exists "", b.
    + intros [Hp | Hrec].
      * apply prefix_app in Hp. destruct Hp as [b Hb]. now exists "", b.
      * destruct (IH Hrec) as [a [b Hab]]. exists (String c a), b.
        simpl. now rewrite Hab.
  - intros [a [b Hab]]. subst s. induction a as [|c a IH].
    + rewrite includes_unfold, orb_true_iff. left.
      apply prefix_app. now exists b.
    + simpl. rewrite orb_true_iff. now right.
Qed.



Lemma toLowerCase_app (a b : string) :
  toLowerCase (a ++ b) = toLowerCase a ++ toLowerCase b.
Proof.
  unfold toLowerCase. induction a as [|c a IH]; simpl; [reflexivity|].
  now rewrite IH.
Qed.

(** ** What [trim] removes *)

Lemma trimStart_split (s : string) :
  exists a, s = a ++ trimStart s /\ every_char is_space a = true.
Proof.
  induction s as [|c s [a [Ha Hsp]]]; simpl.
  - now exists "".
  - destruct (is_space c) eqn:Ec.
    + exists (String c a). simpl. rewrite Ec, Hsp. split; [|reflexivity].
      now rewrite <- Ha.
    + now exists "".
Qed.

Lemma trimEnd_split (s : string) :
  exists b, s = trimEnd s ++ b /\ every_char is_space b = true.
Proof.
  induction s as [|c s [b [Hb Hsp]]]; simpl.
  - now exists "".
  - destruct (trimEnd s) as [|d t] eqn:Et.
    + simpl in Hb. subst b. destruct (is_space c) eqn:Ec.
      * exists (String c s). simpl. now rewrite Ec, Hsp.
      * exists s. now split.
    + exists b. split; [|exact Hsp]. simpl. f_equal. exact Hb.
Qed.

(** [trim] cuts white space, and nothing else, off both ends. *)
Lemma trim_split (s : string) :
  exists a b,
    s = a ++ trim s ++ b
    /\ every_char is_space a = true /\ every_char is_space b = true.
Proof.
  unfold trim. destruct (trimStart_split s) as [a [Ha Hsa]].
  destruct (trimEnd_split (trimStart s)) as [b [Hb Hsb]].
  exists a, b. split; [|now split]. now rewrite <- Hb.
Qed.

Lemma trimEnd_app (x y : string) :
  trimEnd (x ++ y)
  = match trimEnd y with
    | EmptyString => trimEnd x
    | String _ _ => x ++ trimEnd y
    end.
Proof.
  induction x as [|c x IH]; simpl.
  - now destruct (trimEnd y).
  - rewrite IH. destruct (trimEnd y) as [|d t]; [reflexivity|].
    now destruct x.
Qed.

Lemma trimStart_keeps (a sub b : string) :
  sub <> "" -> starts_clean sub ->
  exists a', trimStart (a ++ sub ++ b) = a' ++ sub ++ b.
Proof.
  intros Hne Hclean. induction a as [|c a IH]; simpl.
  - exists "". destruct sub as [|d sub]; [now elim Hne|].
    simpl in *. now rewrite Hclean.
  - destruct (is_space c); [exact IH | now exists (String c a)].
Qed.

Lemma trimEnd_keeps (a sub b : string) :
  sub <> "" -> trimEnd sub = sub ->
  exists b', trimEnd (a ++ sub ++ b) = a ++ sub ++ b'.
Proof.
  intros Hne Hclean. rewrite <- sapp_assoc, trimEnd_app.
  destruct (trimEnd b) as [|d t].
  - rewrite trimEnd_app, Hclean. exists "".
    destruct sub; [now elim Hne|]. now rewrite sapp_nil_r.
  - exists (String d t). now rewrite sapp_assoc.
Qed.

(** Trimming neither hides nor creates an occurrence of a string that has
    no white space at its ends. *)
Lemma includes_trim (s sub : string) :
  clean_ends sub -> includes (trim s) sub = includes s sub.
Proof.
  intros [Hne [Hstart Hend]].
  apply eq_true_iff_eq. rewrite !includes_app. split.
  - intros [a [b Hab]]. destruct (trim_split s) as [x [y [Hs _]]].
    exists (x ++ a), (b ++ y). rewrite Hs, Hab.
    now rewrite !sapp_assoc.
  - intros [a [b Hab]]. subst s. unfold trim.
    destruct (trimStart_keeps a b Hne Hstart) as [a' ->].
    destruct (trimEnd_keeps a' b Hne Hend) as [b' ->].
    now exists a', b'.
Qed.

Lemma mentions_trim (s : string) (keywords : list string) :
  Forall clean_ends keywords ->
  mentions (trim s) keywords = mentions s keywords.
Proof.
  unfold mentions. induction 1 as [|k ks Hk _ IH]; simpl; [reflexivity|].
  now rewrite includes_trim, IH.
Qed.

Lemma keywords_clean :
  Forall clean_ends swap_keywords
  /\ Forall clean_ends liquidity_keywords
  /\ Forall clean_ends price_keywords.
Proof.
  repeat split; repeat constructor; try discriminate.
Qed.

(** ** The decision of [parseInstruction] *)

Lemma parseInstruction_table (s : string) (w : World) :
  exists p,
    parseInstruction s w = (Fulfilled p, w)
    /\ action p = decided_action (trim (toLowerCase s))
    /\ confidence p = decided_confidence (trim (toLowerCase s))
    /\ (action p = "unknown" -> params p = []).
Proof.
  unfold parseInstruction, decided_action, decided_confidence, mentions,
    swap_keywords, liquidity_keywords, price_keywords.
  set (i := trim (toLowerCase s)). simpl. rewrite !orb_false_r.
  rewrite <- !orb_assoc.
  destruct (includes i "swap" || (includes i "exchange" || includes i "trade"));
    [eexists; repeat split; discriminate|].
  destruct (includes i "add liquidity" || includes i "provide liquidity");
    [eexists; repeat split; discriminate|].
  destruct (includes i "price" || (includes i "value" || includes i "worth"));
    [eexists; repeat split; discriminate|].
  eexists; repeat split.
Qed.

(** X1. The keywords are looked for in the lower-cased instruction; the white
    space around it plays no part.  Swap keywords come first, then the
    liquidity keywords, then the price keywords; an instruction with none
    of them is [unknown], with confidence 0.3 and no parameters. *)
Theorem parseInstruction_decision (s : string) (w : World) :
  exists p,
    parseInstruction s w = (Fulfilled p, w)
    /\ action p = decided_action (toLowerCase s)
    /\ confidence p = decided_confidence (toLowerCase s)
    /\ (action p = "unknown" -> params p = []).
Proof.
  destruct (parseInstruction_table s w) as [p [Hrun [Ha [Hc Hu]]]].
  exists p. split; [exact Hrun|].
  destruct keywords_clean as [Hs [Hl Hp]].
  unfold decided_action, decided_confidence in *.
  rewrite !mentions_trim in Ha, Hc by assumption.
  now repeat split.
Qed.

(** X2. An instruction that contains [swap], [exchange] or [trade] in whatever
    letter case is a swap, whatever else it contains. *)
Theorem parseInstruction_swap_in_any_case
        (pre kw post : string) (w : World) :
  In (toLowerCase kw) swap_keywords ->
  exists p,
    parseInstruction (pre ++ kw ++ post) w = (Fulfilled p, w)
    /\ action p = "swap"
    /\ confidence p = 0.85
    /\ prop "slippageBps" (params p) = VNum 50.
Proof.
  intros Hkw.
  assert (Hm : mentions (trim (toLowerCase (pre ++ kw ++ post))) swap_keywords
               = true).
  { destruct keywords_clean as [Hs _]. rewrite mentions_trim by exact Hs.
    unfold mentions. apply existsb_exists. exists (toLowerCase kw).
    split; [exact Hkw|]. apply includes_app.
    exists (toLowerCase pre), (toLowerCase post).
    now rewrite !toLowerCase_app. }
  unfold parseInstruction.
  set (i := trim (toLowerCase (pre ++ kw ++ post))) in *.
  unfold mentions, swap_keywords in Hm. simpl in Hm.
  rewrite orb_false_r, orb_assoc in Hm. rewrite Hm.
  eexists. repeat split.
Qed.

(** ** What the patterns capture *)















(** ** The parameters of a parsed instruction *)







(** ** [enhanceWithLLM] *)

Lemma Q_ltb_false (a b : Q) : Q_ltb a b = false <-> (b <= a)%Q.
Proof.
  unfold Q_ltb. rewrite negb_false_iff. apply Qle_bool_iff.
Qed.

(** X6. On a confidence written with two decimals, [k / 100] with [k] from 0
    to 100 (where the doubles compare as the rationals do),
    [enhanceWithLLM] changes nothing but the confidence, which it raises to
    0.8 when [k] is below 70 and keeps otherwise: afterwards the confidence
    is at least 0.7, and a second pass changes nothing. *)
Theorem enhanceWithLLM_floor (p : ParsedInstruction) (w : World) (k : Z) :
  (0 <= k <= 100)%Z ->
  (confidence p == hundredths k)%Q ->
  exists p',
    enhanceWithLLM p w = (Fulfilled p', w)
    /\ action p' = action p /\ params p' = params p
    /\ context p' = context p
    /\ (0.7 <= confidence p')%Q
    /\ ((70 <= k)%Z -> p' = p)
    /\ ((k < 70)%Z -> confidence p' = 0.8)
    /\ enhanceWithLLM p' w = (Fulfilled p', w).
Proof.
  intros Hk Hc. unfold enhanceWithLLM, ret.
  destruct (Q_ltb (confidence p) 0.7) eqn:E.
  - eexists. split; [reflexivity|]. simpl.
    repeat split; try discriminate.
    intros Hle.
    assert (Hq : (0.7 <= confidence p)%Q).
    { rewrite Hc. unfold hundredths, Qle. simpl. lia. }
    apply Q_ltb_false in Hq. congruence.
  - eexists. split; [reflexivity|]. rewrite E.
    apply Q_ltb_false in E.
    repeat split; [exact E|].
    intros Hlt. exfalso. rewrite Hc in E.
    unfold hundredths, Qle in E. simpl in E. lia.
Qed.

(** X7. After [parseInstruction], [enhanceWithLLM] lifts the confidence of an
    unknown instruction from 0.3 to 0.8 and leaves every other result as it
    is: the confidence of the pipeline is never below 0.8. *)
Theorem enhanced_parse_confidence (s : string) (w : World) :
  exists p p',
    parseInstruction s w = (Fulfilled p, w)
    /\ (parsed <- parseInstruction s ;; enhanceWithLLM parsed) w
       = (Fulfilled p', w)
    /\ action p' = action p /\ params p' = params p
    /\ confidence p'
       = (if String.eqb (action p) "unknown" then 0.8 else confidence p)
    /\ (0.8 <= confidence p')%Q.
Proof.
  destruct (parseInstruction_table s w) as [p [Hrun [Ha [Hc _]]]].
  exists p. unfold bind. rewrite Hrun. unfold enhanceWithLLM, ret.
  revert Ha Hc. unfold decided_action, decided_confidence.
  destruct (mentions _ swap_keywords);
    [|destruct (mentions _ liquidity_keywords);
      [|destruct (mentions _ price_keywords)]];
    intros Ha Hc; rewrite Ha, Hc; simpl;
    eexists; repeat split; simpl; rewrite ?Hc;
    first [assumption | reflexivity | discriminate].
Qed.

(** ** The agents with the parser of the repository *)

Lemma parseInstruction_slippage (s : string) (w : World) :
  exists p,
    parseInstruction s w = (Fulfilled p, w)
    /\ (action p = "swap" -> prop "slippageBps" (params p) = VNum 50).
Proof.
  unfold parseInstruction. set (i := trim (toLowerCase s)).
  destruct (includes i "swap" || includes i "exchange" || includes i "trade");
    [|destruct (includes i "add liquidity" || includes i "provide liquidity");
      [|destruct (includes i "price" || includes i "value"
                  || includes i "worth")]];
    eexists; (split; [reflexivity|]); simpl; intros Hd;
    first [reflexivity | discriminate Hd].
Qed.

Section Handlers.
Context `{Host}.

Lemma plain_toStr (v : JsValue) :
  plain v = true -> exists t, toStr v = Fulfilled t.
Proof.
  destruct v as [| | | | | |b [s|e] n]; simpl; intros Hv;
    try discriminate Hv; eexists; reflexivity.
Qed.

Lemma plain_div100 (v : JsValue) :
  plain v = true -> div100 v = Fulfilled (div100_text v).
Proof.
  destruct v as [| | | | | |b [s|e] [e'|]]; simpl; intros Hv;
    try discriminate Hv; reflexivity.
Qed.

Lemma plain_fees (v : JsValue) (bps : Z) :
  plain v = true -> fees v bps = Fulfilled (fees_toFixed4 v bps).
Proof.
  intros Hv. unfold fees. now destruct (plain_toStr v Hv) as [t ->].
Qed.

Lemma plain_or_else (a b : JsValue) :
  plain a = true -> plain b = true -> plain (or_else a b) = true.
Proof. intros Ha Hb. unfold or_else. now destruct (truthy a). Qed.

Lemma plain_group1_or (m : option captures) (dflt : string) :
  plain (group1_or m dflt) = true.
Proof.
  unfold group1_or. destruct m as [cs|]; [|reflexivity].
  now destruct (capture 1 cs).
Qed.

Lemma plain_firstMarketplace (this : NFTMarketAgent) :
  plain (firstMarketplace this) = true.
Proof. unfold firstMarketplace. now destruct (supportedMarketplaces this). Qed.

Lemma handleSwap_run (this : SolanaDeFiAgent) (a b c d : JsValue) (w : World) :
  (forall r w', handleSwap this a b c d w = (Fulfilled r, w') ->
                envelope_shape r /\ success r = true /\ w' = w)
  /\ (plain a = true -> plain b = true -> plain c = true ->
      plain d = true ->
      exists r, handleSwap this a b c d w = (Fulfilled r, w)).
Proof.
  unfold handleSwap. split.
  - intros r w' Hrun. fulfilled_run Hrun.
    unfold envelope_shape; simpl. repeat split; discriminate.
  - intros Ha Hb Hc Hd. plain_run plain_toStr plain_div100 plain_fees. eexists; reflexivity.
Qed.

Lemma handleAddLiquidity_run (this : SolanaDeFiAgent)
      (a b c d e : JsValue) (w : World) :
  (forall r w', handleAddLiquidity this a b c d e w = (Fulfilled r, w') ->
                envelope_shape r /\ success r = true /\ w' = w)
  /\ (plain a = true ->
      exists r, handleAddLiquidity this a b c d e w = (Fulfilled r, w)).
Proof.
  unfold handleAddLiquidity. split.
  - intros r w' Hrun. fulfilled_run Hrun.
    unfold envelope_shape; simpl. repeat split; discriminate.
  - intros Ha. plain_run plain_toStr plain_div100 plain_fees. eexists; reflexivity.
Qed.

Lemma handlePriceCheck_run (this : SolanaDeFiAgent) (a : JsValue) (w : World) :
  (forall r w', handlePriceCheck this a w = (Fulfilled r, w') ->
                envelope_shape r /\ success r = true
                /\ console w' = console w
                /\ clockReads w' = S (clockReads w))
  /\ (plain a = true ->
      exists r w', handlePriceCheck this a w = (Fulfilled r, w')).
Proof.
  unfold handlePriceCheck. split.
  - intros r w' Hrun. fulfilled_run Hrun.
    unfold envelope_shape; simpl. repeat split; discriminate.
  - intros Ha. plain_run plain_toStr plain_div100 plain_fees. do 2 eexists; reflexivity.
Qed.

Lemma handleListNFT_run (this : NFTMarketAgent) (a b c : JsValue) (w : World) :
  (forall r w', handleListNFT this a b c w = (Fulfilled r, w') ->
                envelope_shape r)
  /\ (plain a = true -> plain b = true -> plain c = true ->
      exists r w', handleListNFT this a b c w = (Fulfilled r, w')).
Proof.
  unfold handleListNFT. split.
  - intros r w' Hrun. fulfilled_run Hrun.
    unfold envelope_shape; simpl. repeat split; discriminate.
  - intros Ha Hb Hc. plain_run plain_toStr plain_div100 plain_fees. do 2 eexists; reflexivity.
Qed.

Lemma handleBuyNFT_run (this : NFTMarketAgent) (a b : JsValue) (w : World) :
  (forall r w', handleBuyNFT this a b w = (Fulfilled r, w') ->
                envelope_shape r)
  /\ (plain a = true -> plain b = true ->
      exists r w', handleBuyNFT this a b w = (Fulfilled r, w')).
Proof.
  unfold handleBuyNFT. split.
  - intros r w' Hrun. fulfilled_run Hrun.
    unfold envelope_shape; simpl. repeat split; discriminate.
  - intros Ha Hb. plain_run plain_toStr plain_div100 plain_fees. do 2 eexists; reflexivity.
Qed.

Lemma handleCollectionCheck_run (this : NFTMarketAgent) (a : JsValue)
      (w : World) :
  (forall r w', handleCollectionCheck this a w = (Fulfilled r, w') ->
                envelope_shape r)
  /\ (plain a = true ->
      exists r w', handleCollectionCheck this a w = (Fulfilled r, w')).
Proof.
  unfold handleCollectionCheck. split.
  - intros r w' Hrun. fulfilled_run Hrun.
    unfold envelope_shape; simpl. repeat split; discriminate.
  - intros Ha. plain_run plain_toStr plain_div100 plain_fees. do 2 eexists; reflexivity.
Qed.

Lemma handleMintNFT_run (this : NFTMarketAgent) (a b c : JsValue) (w : World) :
  (forall r w', handleMintNFT this a b c w = (Fulfilled r, w') ->
                envelope_shape r)
  /\ (plain b = true -> plain c = true ->
      exists r w', handleMintNFT this a b c w = (Fulfilled r, w')).
Proof.
  unfold handleMintNFT. split.
  - intros r w' Hrun. fulfilled_run Hrun.
    unfold envelope_shape; simpl. repeat split; discriminate.
  - intros Hb Hc. plain_run plain_toStr plain_div100 plain_fees. do 2 eexists; reflexivity.
Qed.

Lemma unsupported_shape (p : ParsedInstruction) :
  envelope_shape (unsupported p).
Proof. unfold envelope_shape; simpl. repeat split; discriminate. Qed.

Lemma failed_shape (e : Thrown) : envelope_shape (failed e).
Proof. unfold envelope_shape; simpl. repeat split; discriminate. Qed.

(** The parameters of [parseInstruction] are plain. *)
Lemma parseInstruction_plain (s : string) (w : World) :
  exists p,
    parseInstruction s w = (Fulfilled p, w)
    /\ forall k, plain (prop k (params p)) = true.
Proof.
  unfold parseInstruction. set (i := trim (toLowerCase s)).
  destruct (includes i "swap" || includes i "exchange" || includes i "trade");
    [|destruct (includes i "add liquidity" || includes i "provide liquidity");
      [|destruct (includes i "price" || includes i "value"
                  || includes i "worth")]];
    eexists; (split; [reflexivity|]); intros k; simpl;
    repeat match goal with
           | |- context [String.eqb k ?x] => destruct (String.eqb k x)
           end;
    first [apply plain_group1_or | reflexivity].
Qed.

End Handlers.

Section AgentsWithParser.
Context `{Host}.

(** X8. The actions of [parseInstruction] are none of the [case] labels of
    [NFTMarketAgent]: linked with the parser of the repository, the agent
    answers every instruction with the unsupported-action envelope (code
    400), and reads and writes nothing. *)
Theorem nft_agent_supports_no_instruction
        (nft : NFTMarketAgent) (instruction : string) (w : World) :
  exists p,
    parseInstruction instruction w = (Fulfilled p, w)
    /\ processInstruction nft instruction w = (Fulfilled (unsupported p), w).
Proof.
  destruct (parseInstruction_table instruction w) as [p [Hrun [Ha _]]].
  exists p. split; [exact Hrun|].
  simpl. rewrite (nft_processInstruction_parsed parseInstruction nft instruction w Hrun).
  rewrite Ha. unfold decided_action.
  destruct (mentions _ swap_keywords);
    [|destruct (mentions _ liquidity_keywords);
      [|destruct (mentions _ price_keywords)]]; reflexivity.
Qed.

(** X9. [SolanaDeFiAgent] with the parser of the repository never fails with
    code 500: it succeeds exactly on the instructions the parser does not
    classify as [unknown], answers the others with the unsupported-action
    envelope, never writes to the console, and reads the clock once for a
    price check and not at all otherwise. *)
Theorem defi_agent_answers
        (defi : SolanaDeFiAgent) (instruction : string) (w : World) :
  exists p r w',
    parseInstruction instruction w = (Fulfilled p, w)
    /\ processInstruction defi instruction w = (Fulfilled r, w')
    /\ (success r = true <-> action p <> "unknown")
    /\ (action p = "unknown" -> r = unsupported p)
    /\ console w' = console w
    /\ clockReads w'
       = if String.eqb (action p) "checkPrice"
         then S (clockReads w) else clockReads w.
Proof.
  destruct (parseInstruction_table instruction w) as [p [Hrun [Ha _]]].
  destruct (parseInstruction_plain instruction w) as [p' [Hrun' Hplain]].
  assert (p' = p) by congruence. subst p'. clear Hrun'.
  destruct (parseInstruction_slippage instruction w) as [p' [Hrun' Hslip]].
  assert (p' = p) by congruence. subst p'. clear Hrun'.
  exists p. simpl. rewrite (defi_processInstruction_parsed parseInstruction defi instruction w Hrun).
  revert Ha Hslip. unfold decided_action.
  destruct (mentions _ swap_keywords);
    [|destruct (mentions _ liquidity_keywords);
      [|destruct (mentions _ price_keywords)]];
    intros Ha Hslip; rewrite Ha; simpl.
  - rewrite (Hslip Ha).
    destruct (handleSwap_run defi (prop "sourceToken" (params p))
                (prop "targetToken" (params p)) (prop "amount" (params p))
                (or_else (VNum 50) (VNum (defaultSlippageBps defi))) w)
      as [Hshape Hruns].
    destruct (Hruns (Hplain _) (Hplain _) (Hplain _) eq_refl) as [r Hr].
    destruct (Hshape r w Hr) as (_ & Hs & _).
    exists r, w. rewrite Hr, Hs.
    repeat split; try exact Hrun; try reflexivity;
      try (intros Hx; discriminate Hx); intros _ Hx; discriminate Hx.
  - destruct (handleAddLiquidity_run defi (prop "poolId" (params p))
                (prop "tokenA" (params p)) (prop "amountA" (params p))
                (prop "tokenB" (params p)) (prop "amountB" (params p)) w)
      as [Hshape Hruns].
    destruct (Hruns (Hplain _)) as [r Hr].
    destruct (Hshape r w Hr) as (_ & Hs & _).
    exists r, w. rewrite Hr, Hs.
    repeat split; try exact Hrun; try reflexivity;
      try (intros Hx; discriminate Hx); intros _ Hx; discriminate Hx.
  - destruct (handlePriceCheck_run defi (prop "token" (params p)) w)
      as [Hshape Hruns].
    destruct (Hruns (Hplain _)) as [r [w' Hr]].
    destruct (Hshape r w' Hr) as (_ & Hs & Hcons & Hclock).
    exists r, w'. rewrite Hr, Hs.
    repeat split; try assumption; try reflexivity;
      try (intros Hx; discriminate Hx); intros _ Hx; discriminate Hx.
  - do 2 eexists. split; [exact Hrun|]. split; [reflexivity|].
    simpl. repeat split; try reflexivity; try discriminate.
    intros Hx. now elim Hx.
Qed.

(** X10. The parser always supplies 50 basis points of slippage, so the
    fallback to [defaultSlippageBps] never applies, and no handler reads
    another field: what [SolanaDeFiAgent] answers does not depend on how
    the agent was configured. *)
Theorem defi_agent_configuration_irrelevant
        (defi1 defi2 : SolanaDeFiAgent) (instruction : string) (w : World) :
  processInstruction defi1 instruction w
  = processInstruction defi2 instruction w.
Proof.
  destruct (parseInstruction_slippage instruction w) as [p [Hrun Hswap]].
  simpl. rewrite (defi_processInstruction_parsed parseInstruction defi1 instruction w Hrun),
           (defi_processInstruction_parsed parseInstruction defi2 instruction w Hrun).
  destruct (String.eqb_spec (action p) "swap") as [Hs|_]; [|reflexivity].
  now rewrite (Hswap Hs).
Qed.

End AgentsWithParser.

(** ** Envelopes and transactions *)

Section AgentsWithAnyParser.
Context `{Host}.
Variable parse : string -> Js ParsedInstruction.

(** X11. Whatever parser is bound, every envelope [processInstruction] of
    either agent is fulfilled with has no transaction id and carries data
    and no error when it is a success, an error and no data when it is a
    failure.  What the parser throws is answered with the envelope of a
    failed instruction (code 500); and when the parser resolves to
    parameters on which neither [ToString] nor the division by 100 throws,
    the call is fulfilled. *)
Theorem processInstruction_envelope_shape
        (defi : SolanaDeFiAgent) (nft : NFTMarketAgent)
        (instruction : string) (w : World) :
  (forall r w',
      defi_processInstruction parse defi instruction w = (Fulfilled r, w') ->
      envelope_shape r)
  /\ (forall r w',
         nft_processInstruction parse nft instruction w = (Fulfilled r, w') ->
         envelope_shape r)
  /\ (forall e w1,
         parse instruction w = (Rejected e, w1) ->
         defi_processInstruction parse defi instruction w
         = (Fulfilled (failed e), w1)
         /\ nft_processInstruction parse nft instruction w
            = (Fulfilled (failed e), w1))
  /\ (forall p w1,
         parse instruction w = (Fulfilled p, w1) ->
         (forall k, plain (prop k (params p)) = true) ->
         (exists r w',
             defi_processInstruction parse defi instruction w
             = (Fulfilled r, w'))
         /\ (exists r w',
                nft_processInstruction parse nft instruction w
                = (Fulfilled r, w'))).
Proof.
  destruct (parse instruction w) as [[p|e] w1] eqn:Hp.
  - rewrite (defi_processInstruction_parsed parse defi instruction w Hp),
      (nft_processInstruction_parsed parse nft instruction w Hp).
    split; [|split; [|split]].
    + intros r w'.
      destruct (String.eqb (action p) "swap");
        [apply handleSwap_run|].
      destruct (String.eqb (action p) "addLiquidity");
        [apply handleAddLiquidity_run|].
      destruct (String.eqb (action p) "checkPrice");
        [apply handlePriceCheck_run|].
      intros Hr. injection Hr as <- _. apply unsupported_shape.
    + intros r w'.
      destruct (String.eqb (action p) "listNFT");
        [apply handleListNFT_run|].
      destruct (String.eqb (action p) "buyNFT");
        [apply handleBuyNFT_run|].
      destruct (String.eqb (action p) "checkCollection");
        [apply handleCollectionCheck_run|].
      destruct (String.eqb (action p) "mintNFT");
        [apply handleMintNFT_run|].
      intros Hr. injection Hr as <- _. apply unsupported_shape.
    + intros e w2 Hd. discriminate Hd.
    + intros p' w2 Heq Hplain. injection Heq as <- <-.
      assert (Hslip : plain (or_else (prop "slippageBps" (params p))
                               (VNum (defaultSlippageBps defi))) = true)
        by (apply plain_or_else; [apply Hplain | reflexivity]).
      assert (Hmarket : plain (or_else (prop "marketplace" (params p))
                                 (firstMarketplace nft)) = true)
        by (apply plain_or_else;
            [apply Hplain | apply plain_firstMarketplace]).
      split.
      * destruct (String.eqb (action p) "swap").
        { destruct (handleSwap_run defi (prop "sourceToken" (params p))
                      (prop "targetToken" (params p))
                      (prop "amount" (params p))
                      (or_else (prop "slippageBps" (params p))
                         (VNum (defaultSlippageBps defi))) w1) as [_ Hruns].
          destruct (Hruns (Hplain _) (Hplain _) (Hplain _) Hslip) as [r Hr].
          now exists r, w1. }
        destruct (String.eqb (action p) "addLiquidity").
        { destruct (handleAddLiquidity_run defi (prop "poolId" (params p))
                      (prop "tokenA" (params p)) (prop "amountA" (params p))
                      (prop "tokenB" (params p)) (prop "amountB" (params p))
                      w1) as [_ Hruns].
          destruct (Hruns (Hplain _)) as [r Hr]. now exists r, w1. }
        destruct (String.eqb (action p) "checkPrice").
        { apply handlePriceCheck_run, Hplain. }
        do 2 eexists; reflexivity.
      * destruct (String.eqb (action p) "listNFT").
        { apply handleListNFT_run; [apply Hplain | apply Hplain | exact Hmarket]. }
        destruct (String.eqb (action p) "buyNFT").
        { apply handleBuyNFT_run; apply Hplain. }
        destruct (String.eqb (action p) "checkCollection").
        { apply handleCollectionCheck_run, Hplain. }
        destruct (String.eqb (action p) "mintNFT").
        { apply handleMintNFT_run; apply Hplain. }
        do 2 eexists; reflexivity.
  - rewrite (defi_processInstruction_parser_throws parse defi instruction w Hp),
      (nft_processInstruction_parser_throws parse nft instruction w Hp).
    split; [|split; [|split]].
    + intros r w' Hr. injection Hr as <- _. apply failed_shape.
    + intros r w' Hr. injection Hr as <- _. apply failed_shape.
    + intros e' w2 Heq. injection Heq as <- <-. split; reflexivity.
    + intros p w2 Hd. discriminate Hd.
Qed.

End AgentsWithAnyParser.

Section TransactionFacts.
Variables Transaction Keypair : Type.
Variable sendAndConfirmTransaction : Transaction -> Keypair -> Outcome string.

(** X12. [executeTransaction] is fulfilled only with the signature that
    [sendAndConfirmTransaction] returns for the configured wallet; every
    failure is an [Error] whose message starts with [Transaction execution
    failed: ]; the world is not touched.  As neither class ever sets its
    wallet, [executeTransaction] of both agents always fails, with the
    no-wallet message, and never submits anything. *)
Theorem executeTransaction_outcomes
        (wallet : option Keypair) (transaction : Transaction)
        (defi : SolanaDeFiAgent) (nft : NFTMarketAgent) (w : World) :
  snd (executeTransaction_with sendAndConfirmTransaction wallet transaction w)
  = w
  /\ match fst (executeTransaction_with sendAndConfirmTransaction wallet
                  transaction w) with
     | Fulfilled signature =>
         exists k, wallet = Some k
                   /\ sendAndConfirmTransaction transaction k
                      = Fulfilled signature
     | Rejected e =>
         exists m, e = ErrorObject ("Transaction execution failed: " ++ m)
     end
  /\ defi_executeTransaction sendAndConfirmTransaction defi transaction w
     = (Rejected no_wallet_failure, w)
  /\ nft_executeTransaction sendAndConfirmTransaction nft transaction w
     = (Rejected no_wallet_failure, w).
Proof.
  unfold executeTransaction_with, try_catch, bind, call, throw.
  destruct wallet as [k|]; simpl.
  - destruct (sendAndConfirmTransaction transaction k) as [sig|[m|v]] eqn:E;
      simpl; repeat split; try reflexivity.
    + now exists k.
    + now exists m.
    + now exists "Unknown error".
  - repeat split. now exists "No wallet configured for transaction execution".
Qed.

End TransactionFacts.

(** ** More on the registry *)

Section RegistryFacts.
Context `{Host}.

(** X13. [registerContext] touches one id only: every other id keeps its
    definition, the order of the keys is kept, a new id goes last (the
    registry grows by one exactly then), and the console gets one warning
    exactly when the id was already registered. *)
Theorem registerContext_effect (d : ContextDefinition) (st : RouterState) :
  (forall k, k <> id d ->
     Map_get (contexts (snd (registerContext d st))) k
     = Map_get (contexts st) k)
  /\ Map_keys (contexts (snd (registerContext d st)))
     = (if Map_has (contexts st) (id d)
        then Map_keys (contexts st)
        else (Map_keys (contexts st) ++ [id d])%list)
  /\ Map_size (contexts (snd (registerContext d st)))
     = (if Map_has (contexts st) (id d)
        then Map_size (contexts st)
        else S (Map_size (contexts st)))
  /\ console (world (snd (registerContext d st)))
     = (if Map_has (contexts st) (id d)
        then (console (world st)
              ++ [ConsoleWarn ("Context with ID " ++ id d
                               ++ " already registered, overwriting")])%list
        else console (world st))
  /\ clockReads (world (snd (registerContext d st)))
     = clockReads (world st).
Proof.
  rewrite registerContext_run. simpl. unfold register_in.
  split; [intros k Hk; now apply Map_get_set_other|].
  split; [apply Map_keys_set|].
  split.
  - unfold Map_size. rewrite <- !(length_map fst).
    change (map fst (Map_set (contexts st) (id d) d))
      with (Map_keys (Map_set (contexts st) (id d) d)).
    rewrite Map_keys_set. unfold Map_keys.
    destruct (Map_has (contexts st) (id d)); [reflexivity|].
    rewrite length_app. simpl. lia.
  - destruct (Map_has (contexts st) (id d)); now split.
Qed.

Lemma well_keyed_ids (m : JsMap ContextDefinition) :
  well_keyed m -> NoDup (ids (Map_values m)).
Proof.
  intros [Hnd Hkeys]. unfold ids, Map_values, Map_keys in *.
  replace (map id (map snd m)) with (map fst m); [exact Hnd|].
  clear Hnd. induction m as [|e m IH]; simpl; [reflexivity|].
  inversion Hkeys; subst. f_equal; [assumption | now apply IH].
Qed.

Lemma NoDup_map_filter {X Y} (f : X -> Y) (p : X -> bool) (l : list X) :
  NoDup (map f l) -> NoDup (map f (filter p l)).
Proof.
  induction l as [|x l IH]; simpl; [trivial|].
  intros Hnd. inversion Hnd as [|? ? Hx Hl]; subst.
  destruct (p x); simpl; [|now apply IH].
  constructor; [|now apply IH].
  intros Hin. apply Hx. apply in_map_iff in Hin.
  destruct Hin as [y [Hy Hin]]. apply filter_In in Hin.
  apply in_map_iff. exists y. tauto.
Qed.

(** X14. In every state a router reaches, the result of a query holds no two
    definitions with the same id. *)
Theorem query_results_have_distinct_ids (st : RouterState)
        (required : list string) (type : ContextType) :
  reachable st ->
  (exists l, findContextsByCapabilities required st = (Fulfilled l, st)
             /\ NoDup (ids l))
  /\ (exists l, findContextsByType type st = (Fulfilled l, st)
                /\ NoDup (ids l)).
Proof.
  intros Hreach. apply reachable_well_keyed, well_keyed_ids in Hreach.
  split; eexists;
    (split; [first [apply findContextsByCapabilities_run
                   | apply findContextsByType_run]|]);
    now apply NoDup_map_filter.
Qed.

Lemma equal_ignoring_case_lower (a b : string) :
  equal_ignoring_case a b <-> toLowerCase a = toLowerCase b.
Proof. rewrite <- toLowerCase_eqb_spec. apply String.eqb_eq. Qed.

Lemma covers_weaken (d : ContextDefinition) (required required' : list string) :
  (forall c, In c required ->
     exists c', In c' required' /\ equal_ignoring_case c c') ->
  covers d required' -> covers d required.
Proof.
  intros Hsub Hcov c Hc. destruct (Hsub c Hc) as [c' [Hc' Heq]].
  destruct (Hcov c' Hc') as [cap [Hcap Hcapeq]]. exists cap.
  split; [exact Hcap|]. apply equal_ignoring_case_lower.
  apply equal_ignoring_case_lower in Heq, Hcapeq. congruence.
Qed.

(** X16. Requiring less finds no less: if every capability of one list is, up
    to case, among those of another, whatever the other list finds the
    first finds too; two lists that are the same set up to case (in any
    order, with or without repetitions) find the same definitions. *)
Theorem findContextsByCapabilities_by_requirement
        (required required' : list string) (st : RouterState) :
  (forall c, In c required ->
     exists c', In c' required' /\ equal_ignoring_case c c') ->
  exists l l',
    findContextsByCapabilities required st = (Fulfilled l, st)
    /\ findContextsByCapabilities required' st = (Fulfilled l', st)
    /\ incl l' l
    /\ ((forall c', In c' required' ->
           exists c, In c required /\ equal_ignoring_case c' c) ->
        l = l').
Proof.
  intros Hsub. do 2 eexists.
  split; [apply findContextsByCapabilities_run|].
  split; [apply findContextsByCapabilities_run|]. split.
  - intros d Hd. apply filter_In in Hd. destruct Hd as [Hin Hcov].
    apply filter_In. split; [exact Hin|].
    apply hasAllCapabilities_covers.
    apply hasAllCapabilities_covers in Hcov.
    now apply covers_weaken with (required' := required').
  - intros Hsup. apply filter_ext. intros d.
    apply eq_true_iff_eq. rewrite !hasAllCapabilities_covers.
    split; intros Hcov.
    + now apply covers_weaken with (required' := required).
    + now apply covers_weaken with (required' := required').
Qed.

Lemma equal_ignoring_case_refl (a : string) : equal_ignoring_case a a.
Proof. now apply equal_ignoring_case_lower. Qed.

Lemma Map_set_In_values {V} (m : JsMap V) (k : string) (v : V) :
  In v (Map_values (Map_set m k v)).
Proof.
  unfold Map_values. induction m as [|[k0 v0] m IH]; simpl.
  - now left.
  - destruct (String.eqb k k0); simpl; [now left | now right].
Qed.

(** X17. A definition that has just been registered is found: by its own type,
    by its own list of capabilities, and by every list of capabilities it
    covers. *)
Theorem registered_definition_is_found
        (d : ContextDefinition) (st : RouterState) :
  let st' := snd (registerContext d st) in
  (exists l, findContextsByType (type_ d) st' = (Fulfilled l, st')
             /\ In d l)
  /\ (exists l, findContextsByCapabilities (capabilities d) st'
                = (Fulfilled l, st')
                /\ In d l)
  /\ (forall required,
         covers d required ->
         exists l, findContextsByCapabilities required st' = (Fulfilled l, st')
                   /\ In d l).
Proof.
  intros st'.
  assert (Hin : In d (Map_values (contexts st'))).
  { subst st'. rewrite registerContext_contexts. apply Map_set_In_values. }
  assert (Hfound : forall required, covers d required ->
            exists l,
              findContextsByCapabilities required st' = (Fulfilled l, st')
              /\ In d l).
  { intros required Hcov. eexists.
    split; [apply findContextsByCapabilities_run|].
    apply filter_In. split; [exact Hin|].
    now apply hasAllCapabilities_covers. }
  split; [|split; [|exact Hfound]].
  - eexists. split; [apply findContextsByType_run|].
    apply filter_In. split; [exact Hin | apply ContextType_eqb_refl].
  - apply Hfound. intros c Hc. exists c. split; [exact Hc|].
    apply equal_ignoring_case_refl.
Qed.

End RegistryFacts.

(** ** More on permission and routing *)

Section RoutingFacts.
Context `{Host}.

Lemma RouterState_eta (st : RouterState) :
  {| contexts := contexts st; world := world st |} = st.
Proof. now destruct st. Qed.

(** X18. For the two agents of the repository reading the state never fails
    and touches nothing: on a registered context [checkPermission] returns
    true when [PublicKey] accepts the text of the agent's id, and is
    rejected with the error of [PublicKey] otherwise. *)
Theorem checkPermission_of_repository_agents
        (defi : SolanaDeFiAgent) (nft : NFTMarketAgent)
        (contextId : string) (st : RouterState) :
  Map_has (contexts st) contextId = true ->
  checkPermission defi contextId st
  = (match PublicKey_new (VStr (defi_agentId defi)) with
     | Fulfilled _ => Fulfilled true
     | Rejected e => Rejected e
     end, st)
  /\ checkPermission nft contextId st
     = (match PublicKey_new (VStr (nft_agentId nft)) with
        | Fulfilled _ => Fulfilled true
        | Rejected e => Rejected e
        end, st).
Proof.
  intros Hreg. split; rewrite checkPermission_registered by exact Hreg;
    simpl; rewrite RouterState_eta;
    match goal with |- context [PublicKey_new ?v] =>
      now destruct (PublicKey_new v) end.
Qed.

Section AnyAgent.
Context {A : Type} {AgentA : Agent A}.

(** X19. [routeRequest] never changes the registry.  On a registered context,
    once the state of the agent is read and its key constructed, it is
    fulfilled with the simulated response, which echoes the context id and
    the request, names the context and carries the time of one reading of
    the clock.  It is rejected only with the permission-denied error, for
    an id that is not registered, or with the error of the agent or of
    [PublicKey], for one that is. *)
Theorem routeRequest_outcomes
        (agent : A) (contextId : string) (request : JsRecord)
        (st : RouterState) :
  contexts (snd (routeRequest agent contextId request st)) = contexts st
  /\ (forall context agentState w' key,
         Map_get (contexts st) contextId = Some context ->
         getState agent (world st) = (Fulfilled agentState, w') ->
         PublicKey_new (prop "agentId" agentState) = Fulfilled key ->
         routeRequest agent contextId request st
         = (Fulfilled (simulated_response contextId context request
                         (clockReads w')),
            {| contexts := contexts st;
               world := {| console := console w';
                           clockReads := S (clockReads w') |} |}))
  /\ (forall e,
         fst (routeRequest agent contextId request st) = Rejected e ->
         (Map_has (contexts st) contextId = false
          /\ e = permissionDenied (getName agent) contextId)
         \/ (Map_has (contexts st) contextId = true
             /\ (fst (getState agent (world st)) = Rejected e
                 \/ exists agentState,
                     fst (getState agent (world st)) = Fulfilled agentState
                     /\ PublicKey_new (prop "agentId" agentState)
                        = Rejected e))).
Proof.
  destruct (Map_has (contexts st) contextId) eqn:Hreg.
  - unfold routeRequest, bind.
    rewrite checkPermission_registered by exact Hreg.
    unfold Map_has in Hreg.
    destruct (Map_get (contexts st) contextId) as [context|] eqn:Hget;
      [|discriminate].
    destruct (getState agent (world st)) as [[agentState|e0] w1] eqn:Hstate.
    + destruct (PublicKey_new (prop "agentId" agentState)) as [key|e0]
        eqn:Hkey; simpl.
      * rewrite Hget. unfold outside, now_iso. simpl.
        split; [reflexivity|]. split.
        -- intros context' agentState' w' key' Hc Hs Hk.
           injection Hc as <-. injection Hs as <- <-. reflexivity.
        -- intros e He. discriminate He.
      * split; [reflexivity|]. split.
        -- intros context' agentState' w' key' Hc Hs Hk.
           injection Hs as <- <-. congruence.
        -- intros e He. injection He as <-. right. split; [reflexivity|].
           right. now exists agentState.
    + simpl. split; [reflexivity|]. split.
      * intros context' agentState' w' key' Hc Hs Hk. discriminate Hs.
      * intros e He. injection He as <-. right. split; [reflexivity|].
        now left.
  - rewrite routeRequest_unregistered by exact Hreg. simpl.
    split; [reflexivity|]. split.
    + intros context agentState w' key Hc. apply Map_has_get in Hreg.
      congruence.
    + intros e He. injection He as <-. left. now split.
Qed.

End AnyAgent.
End RoutingFacts.

(** ** More on loading a directory *)

Section LoadingFacts.
Context `{Host}.

Lemma for_of_loadFile_contexts (contextDir : string) (files : list string)
      (st : RouterState) :
  contexts (snd (for_of files (loadFile contextDir) st))
  = register_all (definitions_until_failure contextDir files) (contexts st).
Proof.
  revert st. induction files as [|f fs IH]; intros st; simpl;
    [reflexivity|].
  unfold bind. rewrite loadFile_run.
  destruct (recognized f); [|apply IH].
  destruct (definitionOf contextDir f) as [d|e]; [|reflexivity].
  rewrite registerContext_run. rewrite IH. reflexivity.
Qed.

(** The closing line of [loadContexts] and the state in front of it. *)
Lemma loadContexts_run (contextDir : string) (st : RouterState) :
  exists o st1,
    (files <- call (readdirSync contextDir) ;;
     for_of files (loadFile contextDir)) st = (o, st1)
    /\ loadContexts contextDir st
       = (o,
          {| contexts := contexts st1;
             world :=
               {| console :=
                    (console (world st1)
                     ++ [match o with
                         | Fulfilled _ => loaded_line (contexts st1)
                         | Rejected e =>
                             ConsoleError
                               "Failed to load context definitions:" e
                         end])%list;
                  clockReads := clockReads (world st1) |} |}).
Proof.
  unfold loadContexts, try_catch, bind, call, outside, write_console,
    get_contexts, throw, loaded_line.
  destruct (readdirSync contextDir) as [files|e]; simpl.
  - destruct (for_of files (loadFile contextDir) st) as [[[]|e] st1]; simpl;
      do 2 eexists; split; reflexivity.
  - do 2 eexists; split; reflexivity.
Qed.

Lemma loadContexts_contexts (contextDir : string) (st : RouterState) :
  contexts (snd (loadContexts contextDir st))
  = register_all (loadedDefinitions contextDir) (contexts st).
Proof.
  destruct (loadContexts_run contextDir st) as [o [st1 [Hbody ->]]].
  simpl. unfold loadedDefinitions.
  unfold bind, call in Hbody.
  destruct (readdirSync contextDir) as [files|e].
  - rewrite <- for_of_loadFile_contexts. now rewrite Hbody.
  - now injection Hbody as _ <-.
Qed.




(** X21. [loadContexts] ends by writing one line to the console: when it
    succeeds, the line [Loaded N context definitions], where N is the size
    of the whole registry (not the number of files read); when it fails,
    the line of [console.error] with the very error it throws. *)
Theorem loadContexts_closing_line (contextDir : string) (st : RouterState) :
  exists earlier,
    console (world (snd (loadContexts contextDir st)))
    = (earlier
       ++ [match fst (loadContexts contextDir st) with
           | Fulfilled _ =>
               loaded_line (contexts (snd (loadContexts contextDir st)))
           | Rejected e =>
               ConsoleError "Failed to load context definitions:" e
           end])%list.
Proof.
  destruct (loadContexts_run contextDir st) as [o [st1 [_ ->]]].
  simpl. exists (console (world st1)). now destruct o.
Qed.

Lemma definitions_until_failure_loads (contextDir : string)
      (files : list string) :
  Forall (loads contextDir) files ->
  definitions_until_failure contextDir files = definitionsOf contextDir files.
Proof.
  induction 1 as [|f fs Hf _ IH]; simpl; [reflexivity|].
  destruct (recognized f) eqn:Er; [|exact IH].
  destruct Hf as [Hf | [d Hd]]; [congruence|]. now rewrite Hd, IH.
Qed.

(** X22. Round trip: after a new router has loaded a directory whose files
    yield one definition, [findContextsByType] for the declared type
    returns exactly that definition, and nothing for any other type. *)
Theorem loadContexts_then_find (contextDir : string) (files : list string)
        (d : ContextDefinition) (w : World) (t : ContextType) :
  readdirSync contextDir = Fulfilled files ->
  Forall (loads contextDir) files ->
  definitionsOf contextDir files = [d] ->
  fst (findContextsByType t
         (snd (loadContexts contextDir {| contexts := []; world := w |})))
  = Fulfilled (if ContextType_eqb (type_ d) t then [d] else []).
Proof.
  intros Hdir Hall Hone.
  rewrite findContextsByType_run, loadContexts_contexts.
  unfold loadedDefinitions.
  rewrite Hdir, definitions_until_failure_loads, Hone by exact Hall.
  simpl. now destruct (ContextType_eqb (type_ d) t).
Qed.


Lemma get_register_all (ds : list ContextDefinition)
      (m : JsMap ContextDefinition) (k : string) :
  Map_get (register_all ds m) k
  = match last_with_id k ds with
    | Some d => Some d
    | None => Map_get m k
    end.
Proof.
  unfold register_all. revert m.
  induction ds as [|d ds IH]; intros m; simpl; [reflexivity|].
  rewrite IH. destruct (last_with_id k ds); [reflexivity|].
  unfold register_in. destruct (String.eqb_spec k (id d)) as [->|Hne].
  - apply Map_get_set_same.
  - now apply Map_get_set_other.
Qed.

Lemma register_all_NoDup (ds : list ContextDefinition)
      (m : JsMap ContextDefinition) :
  NoDup (Map_keys m) -> NoDup (Map_keys (register_all ds m)).
Proof.
  unfold register_all. revert m.
  induction ds as [|d ds IH]; intros m Hnd; simpl; [exact Hnd|].
  apply IH. now apply Map_set_NoDup.
Qed.

Lemma register_all_keys_present (ds : list ContextDefinition)
      (m : JsMap ContextDefinition) :
  (forall d, In d ds -> Map_has m (id d) = true) ->
  Map_keys (register_all ds m) = Map_keys m.
Proof.
  unfold register_all. revert m.
  induction ds as [|d ds IH]; intros m Hall; simpl; [reflexivity|].
  rewrite IH.
  - unfold register_in. rewrite Map_keys_set.
    now rewrite (Hall d (or_introl eq_refl)).
  - intros d' Hd'. apply Map_has_set_mono. apply Hall. now right.
Qed.

(** Two maps with the same keys, none of them twice, and the same value
    under each key are the same map. *)
Lemma Map_ext {V} (m1 m2 : JsMap V) :
  NoDup (Map_keys m1) -> Map_keys m1 = Map_keys m2 ->
  (forall k, Map_get m1 k = Map_get m2 k) -> m1 = m2.
Proof.
  revert m2. induction m1 as [|[k v] m1 IH]; intros [|[k2 v2] m2];
    simpl; intros Hnd Hkeys Hget; try discriminate; [reflexivity|].
  injection Hkeys as <- Hkeys.
  inversion Hnd as [|? ? Hk Hnd']; subst.
  pose proof (Hget k) as Hk0. rewrite String.eqb_refl in Hk0.
  injection Hk0 as <-. f_equal.
  apply IH; [exact Hnd' | exact Hkeys |].
  intros k'. destruct (String.eqb_spec k' k) as [->|Hne].
  - transitivity (@None V); [|symmetry].
    + now apply Map_get_None.
    + apply Map_get_None. unfold Map_keys in *. now rewrite <- Hkeys.
  - specialize (Hget k'). apply String.eqb_neq in Hne.
    now rewrite Hne in Hget.
Qed.

(** X24. Loading a directory a second time leaves the registry as the first
    load left it, whether the load succeeds or fails: every definition is
    overwritten by itself. *)
Theorem loadContexts_twice (contextDir : string) (st : RouterState) :
  reachable st ->
  contexts (snd (loadContexts contextDir (snd (loadContexts contextDir st))))
  = contexts (snd (loadContexts contextDir st)).
Proof.
  intros Hreach. apply reachable_well_keyed in Hreach.
  destruct Hreach as [Hnd _].
  rewrite !loadContexts_contexts.
  set (ds := loadedDefinitions contextDir).
  apply Map_ext.
  - now do 2 apply register_all_NoDup.
  - apply register_all_keys_present. intros d Hd.
    now apply registered_after_fold.
  - intros k. rewrite !get_register_all.
    now destruct (last_with_id k ds).
Qed.

End LoadingFacts.

(* ================================================================== *)
(** * The further properties at work *)

Section FurtherExamples.
Existing Instance demoHost.

Lemma parseInstruction_swap_in_any_case_example :
  In (toLowerCase "SWAP") swap_keywords
  /\ exists p,
      parseInstruction ("What is the price if I " ++ "SWAP" ++ " 5 sol")
        quietWorld = (Fulfilled p, quietWorld)
      /\ action p = "swap"
      /\ confidence p = 0.85
      /\ prop "slippageBps" (params p) = VNum 50.
Proof.
  assert (Hkw : In (toLowerCase "SWAP") swap_keywords).
  { left. reflexivity. }
  split; [exact Hkw|].
  exact (parseInstruction_swap_in_any_case
           "What is the price if I " "SWAP" " 5 sol" quietWorld Hkw).
Defined.

Lemma enhanceWithLLM_floor_example :
  exists p',
    enhanceWithLLM
      {| action := "unknown"; params := []; context := None;
         confidence := 0.3 |} quietWorld = (Fulfilled p', quietWorld)
    /\ action p' = "unknown"
    /\ confidence p' = 0.8.
Proof.
  assert (Hk : (0 <= 30 <= 100)%Z) by lia.
  assert (Hc : (confidence {| action := "unknown"; params := [];
                              context := None; confidence := 0.3 |}
                == hundredths 30)%Q) by reflexivity.
  destruct (enhanceWithLLM_floor
              {| action := "unknown"; params := []; context := None;
                 confidence := 0.3 |} quietWorld Hk Hc)
    as (p' & Hrun & Ha & _ & _ & _ & _ & Hraised & _).
  assert (Hlt : (30 < 70)%Z) by lia.
  exists p'. split; [exact Hrun|]. split; [exact Ha|].
  exact (Hraised Hlt).
Defined.

Lemma processInstruction_envelope_shape_example :
  exists r w',
    defi_processInstruction parseInstruction defiAgent
      "do something completely different" quietWorld = (Fulfilled r, w')
    /\ envelope_shape r.
Proof.
  assert (Hp : parseInstruction "do something completely different"
                 quietWorld
               = (Fulfilled {| action := "unknown"; params := [];
                               context := None; confidence := 0.3 |},
                  quietWorld)) by reflexivity.
  assert (Hplain : forall k,
             plain (prop k (params {| action := "unknown"; params := [];
                                      context := None;
                                      confidence := 0.3 |})) = true)
    by (intros k; reflexivity).
  destruct (processInstruction_envelope_shape
              parseInstruction defiAgent nftAgent
              "do something completely different" quietWorld)
    as (Hshape & _ & _ & Hruns).
  destruct (Hruns _ _ Hp Hplain) as [[r [w' Hr]] _].
  exists r, w'. split; [exact Hr|]. exact (Hshape r w' Hr).
Defined.


Lemma query_results_have_distinct_ids_example :
  reachable jupiterRouter
  /\ exists l,
      findContextsByType DEX jupiterRouter = (Fulfilled l, jupiterRouter)
      /\ NoDup (ids l).
Proof.
  assert (Hreach : reachable jupiterRouter).
  { apply reach_register, reach_new. }
  split; [exact Hreach|].
  exact (proj2 (query_results_have_distinct_ids [] DEX Hreach)).
Defined.

Lemma findContextsByCapabilities_by_requirement_example :
  (forall c, In c ["TOKEN_SWAPS"] ->
     exists c', In c' ["token_swaps"; "price_discovery"]
                /\ equal_ignoring_case c c')
  /\ exists l l',
      findContextsByCapabilities ["TOKEN_SWAPS"] jupiterRouter
      = (Fulfilled l, jupiterRouter)
      /\ findContextsByCapabilities ["token_swaps"; "price_discovery"]
           jupiterRouter
         = (Fulfilled l', jupiterRouter)
      /\ incl l' l.
Proof.
  assert (Hsub : forall c, In c ["TOKEN_SWAPS"] ->
             exists c', In c' ["token_swaps"; "price_discovery"]
                        /\ equal_ignoring_case c c').
  { intros c [<- | []]. exists "token_swaps". split; [now left|].
    apply equal_ignoring_case_lower. reflexivity. }
  split; [exact Hsub|].
  destruct (findContextsByCapabilities_by_requirement
              ["TOKEN_SWAPS"] ["token_swaps"; "price_discovery"]
              jupiterRouter Hsub)
    as [l [l' [Hl [Hl' [Hincl _]]]]].
  exists l, l'. now repeat split.
Defined.

Lemma checkPermission_of_repository_agents_example :
  Map_has (contexts jupiterRouter) "jupiter-dex-v4" = true
  /\ checkPermission defiAgent "jupiter-dex-v4" jupiterRouter
     = (Fulfilled true, jupiterRouter)
  /\ checkPermission nftAgent "jupiter-dex-v4" jupiterRouter
     = (Fulfilled true, jupiterRouter).
Proof.
  assert (Hreg : Map_has (contexts jupiterRouter) "jupiter-dex-v4" = true).
  { reflexivity. }
  split; [exact Hreg|].
  exact (checkPermission_of_repository_agents defiAgent nftAgent
           "jupiter-dex-v4" jupiterRouter Hreg).
Defined.

Lemma loadContexts_twice_example :
  reachable newRouter
  /\ contexts (snd (loadContexts "contexts"
                      (snd (loadContexts "contexts" newRouter))))
     = contexts (snd (loadContexts "contexts" newRouter)).
Proof.
  assert (Hreach : reachable newRouter).
  { apply reach_new. }
  split; [exact Hreach|].
  exact (loadContexts_twice "contexts" Hreach).
Defined.

End FurtherExamples.

Section TidyExamples.
Existing Instance tidyHost.

Lemma loadContexts_then_find_example :
  readdirSync "contexts" = Fulfilled ["README.md"; "jupiter-dex.yaml"]
  /\ Forall (loads "contexts") ["README.md"; "jupiter-dex.yaml"]
  /\ definitionsOf "contexts" ["README.md"; "jupiter-dex.yaml"] = [jupiter]
  /\ fst (findContextsByType DEX (snd (loadContexts "contexts" newRouter)))
     = Fulfilled [jupiter].
Proof.
  assert (Hdir : readdirSync "contexts"
                 = Fulfilled ["README.md"; "jupiter-dex.yaml"]).
  { reflexivity. }
  assert (Hall : Forall (loads "contexts") ["README.md"; "jupiter-dex.yaml"]).
  { constructor; [left; reflexivity|].
    constructor; [right; exists jupiter; reflexivity | constructor]. }
  assert (Hone : definitionsOf "contexts" ["README.md"; "jupiter-dex.yaml"]
                 = [jupiter]).
  { reflexivity. }
  split; [exact Hdir|]. split; [exact Hall|]. split; [exact Hone|].
  exact (loadContexts_then_find quietWorld DEX Hdir Hall Hone).
Defined.

End TidyExamples.

Section RoutingExample.
Existing Instance demoHost.

Lemma routeRequest_outcomes_example :
  Map_get (contexts jupiterRouter) "jupiter-dex-v4" = Some jupiter
  /\ fst (routeRequest defiAgent "jupiter-dex-v4"
            [("inputMint", VStr "SOL")] jupiterRouter)
     = Fulfilled
         {| resp_contextId := "jupiter-dex-v4";
            timestamp := "2024-01-01T00:00:00.000Z";
            status := "success";
            resp_data :=
              {| resp_message := "Processed request to Jupiter Aggregator";
                 requestSummary := [("inputMint", VStr "SOL")] |} |}.
Proof.
  assert (Hget : Map_get (contexts jupiterRouter) "jupiter-dex-v4"
                 = Some jupiter).
  { reflexivity. }
  split; [exact Hget|].
  assert (Hstate : getState defiAgent (world jupiterRouter)
                   = (Fulfilled [("agentId", VStr (defi_agentId defiAgent));
                                 ("supportedDexes",
                                  VStrs (supportedDexes defiAgent));
                                 ("defaultSlippageBps",
                                  VNum (defaultSlippageBps defiAgent))],
                      world jupiterRouter)).
  { reflexivity. }
  assert (Hkey : PublicKey_new
                   (prop "agentId"
                      [("agentId", VStr (defi_agentId defiAgent));
                       ("supportedDexes", VStrs (supportedDexes defiAgent));
                       ("defaultSlippageBps",
                        VNum (defaultSlippageBps defiAgent))])
                 = Fulfilled (defi_agentId defiAgent)).
  { reflexivity. }
  rewrite (proj1 (proj2 (routeRequest_outcomes defiAgent "jupiter-dex-v4"
                           [("inputMint", VStr "SOL")] jupiterRouter))
             jupiter _ _ _ Hget Hstate Hkey).
  reflexivity.
Defined.

End RoutingExample.
